(** * The agent executor of langchainjs: run-to-completion driver and step iterator

    A shallow embedding of [AgentExecutor] and [AgentExecutorIterator]
    (libs/langchain-scripts/src/check-tree-shaking.ts, lines 141-838) and
    the properties of the loop that the specification states about them.

    Conventions of the embedding.
    - Promises are run in program order; a rejected promise is a raised
      error.  The tool calls of one planning cycle of [_call], which the
      source starts through [Promise.all], are made one after the other,
      in the order of the actions, up to the first that is rejected.
    - The decision-maker and the tools are collaborators with a state of
      their own: their capabilities are functions in a state-and-error
      monad over an arbitrary world [W].
    - The observability hooks ([runManager], callbacks, [onFirstStep])
      never gate the control flow and are left out.
    - Numbers are integers ([maxIterations], [iterations]).
    - JS strings are held as strings of bytes.  Comparing them,
      concatenating them and testing for a prefix of ASCII characters
      are the same on the bytes.  [toLowerCase] and [trim] go by the
      character tables of the engine and are taken as given
      ([StringMethods]); the runs on concrete inputs use strings of
      ASCII characters, on which the two methods are written out.
    - A JS object used as a table keeps its own keys in the order of
      [Object.keys].  A lookup of a name that is no own key but is
      inherited from [Object.prototype] ([inherited]) finds a built-in
      that is no tool; what the program then records depends on the
      engine and is outside the embedding: the properties that rest
      on a lookup failing assume a name that is not inherited.
    - Records of values are immutable: where [_return] assigns
      [intermediateSteps] into the [returnValues] object it was given,
      the embedding makes the updated record. *)

From Stdlib Require Import String Ascii ZArith NArith List Bool Lia.
From stdpp Require Import gmap strings list fin_maps.
Import ListNotations.

Local Open Scope string_scope.
Local Open Scope list_scope.
Local Open Scope Z_scope.

(** ** Data model *)

(** [AgentAction]: [toolInput] is [None] where the source leaves it
    [undefined]. *)
Record AgentAction := mkAction {
  tool : string;
  toolInput : option string;
  log : string
}.

Record AgentStep := mkStep {
  action : AgentAction;
  observation : string
}.

(** The values a [ChainValues] record holds in this program. *)
Inductive Value :=
| VString (s : string)
| VSteps (steps : list AgentStep).

Abbreviation ChainValues := (gmap string Value).

Record AgentFinish := mkFinish {
  returnValues : ChainValues;
  finishLog : string
}.

(** What [plan] resolves to: [AgentFinish | AgentAction | AgentAction[]]. *)
Inductive PlanOutput :=
| Finish (f : AgentFinish)
| OneAction (a : AgentAction)
| ManyActions (l : list AgentAction).

(** The errors the loop tells apart with [instanceof]. *)
Inductive Exn :=
| OutputParserException (message : string) (llmOutput : option string)
    (e_observation : option string) (sendToLLM : bool)
| ToolInputParsingException (message : string) (output : option string)
| Error (message : string)
| TypeError (message : string).

Definition message_of (e : Exn) : string :=
  match e with
  | OutputParserException m _ _ _ => m
  | ToolInputParsingException m _ => m
  | Error m => m
  | TypeError m => m
  end.

(** [handleParsingErrors: boolean | string | ((e) => string)]. *)
Inductive HandleParsingErrors :=
| HBool (b : bool)
| HString (s : string)
| HFunction (f : Exn -> string).

Inductive AgentActionType := single | multi.

(** ** The state-and-error monad of the asynchronous methods *)

Definition M (S A : Type) : Type := S -> (Exn + A) * S.

Definition ret {S A} (a : A) : M S A := fun s => (inr a, s).
Definition throw {S A} (e : Exn) : M S A := fun s => (inl e, s).
Definition bind {S A B} (m : M S A) (k : A -> M S B) : M S B :=
  fun s => match m s with
           | (inr a, s') => k a s'
           | (inl e, s') => (inl e, s')
           end.
Definition try_catch {S A} (m : M S A) (h : Exn -> M S A) : M S A :=
  fun s => match m s with
           | (inr a, s') => (inr a, s')
           | (inl e, s') => h e s'
           end.

Declare Scope js_scope.
Delimit Scope js_scope with js.
Notation "x <- c1 ;; c2" := (bind c1 (fun x => c2))
  (at level 100, c1 at next level, right associativity) : js_scope.
Notation "c1 ;;; c2" := (bind c1 (fun _ => c2))
  (at level 100, right associativity) : js_scope.
Local Open Scope js_scope.

Fixpoint mapM {S A B} (f : A -> M S B) (l : list A) : M S (list B) :=
  match l with
  | [] => ret []
  | a :: l' => b <- f a ;; bs <- mapM f l' ;; ret (b :: bs)
  end.

(** ** Strings *)

(** [String.prototype.toLowerCase] and [String.prototype.trim], which
    the engine computes from the Unicode character tables.  The
    properties of the program are proved for whatever the two methods
    compute. *)
Class StringMethods := {
  toLowerCase : string -> string;
  trim : string -> string
}.

(** The two methods on strings of ASCII characters: the letters A-Z are
    the only ones with a lower case of their own, and the white space
    and line terminators are the characters 9 to 13 and 32. *)
Definition toLowerCase_ascii (c : ascii) : ascii :=
  let n := N_of_ascii c in
  if ((65 <=? n) && (n <=? 90))%N then ascii_of_N (n + 32) else c.

Fixpoint toLowerCase_string (s : string) : string :=
  match s with
  | EmptyString => EmptyString
  | String c s' => String (toLowerCase_ascii c) (toLowerCase_string s')
  end.

Definition isWhiteSpace (c : ascii) : bool :=
  let n := N_of_ascii c in
  ((n =? 32) || ((9 <=? n) && (n <=? 13)))%N.

Fixpoint trimStart (s : string) : string :=
  match s with
  | EmptyString => EmptyString
  | String c s' => if isWhiteSpace c then trimStart s' else s
  end.

Definition trim_string (s : string) : string :=
  String.rev (trimStart (String.rev (trimStart s))).

(** What the engine's methods compute on strings of ASCII characters.
    Only the runs on concrete inputs, whose strings are all of this
    kind, are evaluated with it; no property of the program assumes
    it. *)
Definition asciiStrings : StringMethods :=
  {| toLowerCase := toLowerCase_string; trim := trim_string |}.

(** [Array.prototype.join]. *)
Definition join (sep : string) (l : list string) : string := String.concat sep l.

(** [String.prototype.startsWith]. *)
Definition startsWith (s p : string) : bool := String.prefix p s.

(** ** JS objects used as tables

    Own string keys with their values, in insertion order; writing an
    existing key keeps its place. *)

Definition JsObject (A : Type) : Type := list (string * A).

Fixpoint obj_get {A} (k : string) (o : JsObject A) : option A :=
  match o with
  | [] => None
  | (k', v) :: o' => if String.eqb k k' then Some v else obj_get k o'
  end.

Fixpoint obj_set {A} (k : string) (v : A) (o : JsObject A) : JsObject A :=
  match o with
  | [] => [(k, v)]
  | (k', v') :: o' =>
      if String.eqb k k' then (k, v) :: o' else (k', v') :: obj_set k v o'
  end.

(** [Object.fromEntries(entries)], and as well
    [Object.assign({}, ...entries.map(([k, v]) => ({[k]: v})))]. *)
Definition Object_fromEntries {A} (entries : list (string * A)) : JsObject A :=
  fold_left (fun o e => obj_set (fst e) (snd e) o) entries [].

(** Array indices: canonical numeric strings below 2^32 - 1.  [Object.keys]
    lists them first, in ascending order, then the other keys in
    insertion order. *)
Definition digit_of (c : ascii) : option N :=
  let n := N_of_ascii c in
  if ((48 <=? n) && (n <=? 57))%N then Some (n - 48)%N else None.

Fixpoint parse_digits (acc : N) (s : string) : option N :=
  match s with
  | EmptyString => Some acc
  | String c s' =>
      match digit_of c with
      | Some d => parse_digits (acc * 10 + d)%N s'
      | None => None
      end
  end.

Definition array_index (s : string) : option N :=
  match s with
  | EmptyString => None
  | String c s' =>
      if Ascii.eqb c "0" && negb (String.eqb s' "") then None
      else match parse_digits 0%N s with
           | Some n => if (n <? 4294967295)%N then Some n else None
           | None => None
           end
  end.

Fixpoint insert_index (k : N * string) (l : list (N * string)) : list (N * string) :=
  match l with
  | [] => [k]
  | k' :: l' => if (fst k <=? fst k')%N then k :: l else k' :: insert_index k l'
  end.

Definition index_keys {A} (o : JsObject A) : list (N * string) :=
  fold_right (fun e acc =>
                match array_index (fst e) with
                | Some n => insert_index (n, fst e) acc
                | None => acc
                end) [] o.

Definition name_keys {A} (o : JsObject A) : list string :=
  fold_right (fun e acc =>
                match array_index (fst e) with
                | Some _ => acc
                | None => fst e :: acc
                end) [] o.

Definition Object_keys {A} (o : JsObject A) : list string :=
  map snd (index_keys o) ++ name_keys o.

(** The names every object inherits from [Object.prototype]: under
    these [k in o] holds and [o[k]] is a built-in, whatever the own keys
    of [o] are. *)
Definition Object_prototype_names : list string :=
  [ "constructor"; "__defineGetter__"; "__defineSetter__"; "hasOwnProperty";
    "__lookupGetter__"; "__lookupSetter__"; "isPrototypeOf";
    "propertyIsEnumerable"; "toString"; "valueOf"; "__proto__"; "toLocaleString" ].

Definition inherited (k : string) : bool :=
  existsb (String.eqb k) Object_prototype_names.

(** ** Collaborators and the executor *)

Section Executor.

Context {W : Type} {SM : StringMethods}.

(** A tool: [name], [returnDirect] and [call]. *)
Record Tool := mkTool {
  name : string;
  returnDirect : bool;
  call : option string -> M W string
}.

(** The decision-maker: the capabilities the executor consumes. *)
Record Agent := mkAgent {
  _agentActionType : AgentActionType;
  agentReturnValues : list string;
  plan : list AgentStep -> ChainValues -> M W PlanOutput;
  returnStoppedResponse : string -> list AgentStep -> ChainValues -> M W AgentFinish;
  prepareForOutput : ChainValues -> list AgentStep -> M W ChainValues
}.

(** [AgentExecutorInput].  [inAgent] is the agent after the constructor
    has wrapped a [Runnable] into a [RunnableAgent].  [inPrepOutputs]
    stands for what [super(input)] sets up in [BaseChain]: the inherited
    method [prepOutputs], which is not among the sources. *)
Record AgentExecutorInput := mkInput {
  inAgent : Agent;
  inTools : list Tool;
  inReturnIntermediateSteps : option bool;
  inMaxIterations : option Z;
  inEarlyStoppingMethod : option string;
  inHandleParsingErrors : option HandleParsingErrors;
  inPrepOutputs : ChainValues -> ChainValues -> bool -> M W ChainValues
}.

Record AgentExecutor := mkExecutor {
  agent : Agent;
  tools : list Tool;
  returnIntermediateSteps : bool;
  maxIterations : option Z;
  earlyStoppingMethod : string;
  handleParsingErrors : HandleParsingErrors;
  prepOutputs : ChainValues -> ChainValues -> bool -> M W ChainValues
}.

(** [input.x ?? this.x]. *)
Definition nullish {A} (x : option A) (d : A) : A :=
  match x with Some a => a | None => d end.

(** The constructor (lines 487-514). *)
Definition AgentExecutor_new (input : AgentExecutorInput) : Exn + AgentExecutor :=
  let built :=
    {| agent := inAgent input;
       tools := inTools input;
       returnIntermediateSteps := nullish (inReturnIntermediateSteps input) false;
       maxIterations := Some (nullish (inMaxIterations input) 15);
       earlyStoppingMethod := nullish (inEarlyStoppingMethod input) "force";
       handleParsingErrors := nullish (inHandleParsingErrors input) (HBool false);
       prepOutputs := inPrepOutputs input |} in
  match _agentActionType (inAgent input) with
  | multi =>
      match List.find returnDirect (inTools input) with
      | Some t =>
          inl (Error ("Tool with return direct " +:+ name t +:+
                      " not supported for multi-action agent."))
      | None => inr built
      end
  | single => inr built
  end.

(** [shouldContinue] (lines 531-533). *)
Definition shouldContinue (ex : AgentExecutor) (iterations : Z) : bool :=
  match maxIterations ex with
  | None => true
  | Some m => iterations <? m
  end.

(** [ExceptionTool._call] (lines 421-423). *)
Definition ExceptionTool__call {A} (query : A) : M W A := ret query.

(** Modelled from the spec: [Tool.call], the base-class method through
    which [_call] is reached, is not among the sources.  For the
    exception tool, "a tool that trivially echoes its input back as the
    observation", it hands its input to [_call] and returns the result. *)
Definition ExceptionTool_call {A} (query : A) : M W A := ExceptionTool__call query.

(** The lower-cased table of [_call] (lines 540-542) and of
    [_getToolReturn] (lines 781-783). *)
Definition toolsByName (ex : AgentExecutor) : JsObject Tool :=
  Object_fromEntries (map (fun t => (toLowerCase (name t), t)) (tools ex)).

(** The handling of a parsing error of [plan] (lines 565-586 and,
    word for word, 679-700): the action that stands for the error, or
    the error again. *)
Definition recoverPlan (ex : AgentExecutor) (e : Exn) : M W PlanOutput :=
  match e with
  | OutputParserException msg llmOutput obs sendToLLM =>
      match handleParsingErrors ex with
      | HBool true =>
          if sendToLLM
          then ret (OneAction (mkAction "_Exception" obs (nullish llmOutput "")))
          else ret (OneAction (mkAction "_Exception"
                                 (Some "Invalid or incomplete response") msg))
      | HString s => ret (OneAction (mkAction "_Exception" (Some s) msg))
      | HFunction f => ret (OneAction (mkAction "_Exception" (Some (f e)) msg))
      | HBool false => throw e
      end
  | _ => throw e
  end.

Definition planOrRecover (ex : AgentExecutor) (steps : list AgentStep)
    (inputs : ChainValues) : M W PlanOutput :=
  try_catch (plan (agent ex) steps inputs) (recoverPlan ex).

(** The choice of the observation for a [ToolInputParsingException]
    (lines 618-627 and 733-742); [None] is the [throw e] branch. *)
Definition toolInputObservation (ex : AgentExecutor) (e : Exn) : option string :=
  match handleParsingErrors ex with
  | HBool true => Some "Invalid or incomplete tool input. Please try again."
  | HString s => Some s
  | HFunction f => Some (f e)
  | HBool false => None
  end.

(** [Array.isArray(output) ? output : [output]] (lines 596-601, 710-715). *)
Definition actionsOf (output : PlanOutput) : list AgentAction :=
  match output with
  | ManyActions l => l
  | OneAction a => [a]
  | Finish _ => []
  end.

(** *** The run-to-completion driver [_call] (lines 536-662) *)

(** [getOutput] (lines 546-557); [steps] is the array at the time of the
    call. *)
Definition getOutput (ex : AgentExecutor) (steps : list AgentStep)
    (finishStep : AgentFinish) : M W ChainValues :=
  additional <- prepareForOutput (agent ex) (returnValues finishStep) steps ;;
  if returnIntermediateSteps ex
  then ret (additional ∪ <["intermediateSteps" := VSteps steps]> (returnValues finishStep))
  else ret (additional ∪ returnValues finishStep).

(** The function mapped over the actions (lines 604-637).  The table
    is looked up by its own keys. *)
Definition callAction (ex : AgentExecutor) (byName : JsObject Tool)
    (a : AgentAction) : M W AgentStep :=
  fun w =>
    let attempt : (Exn + option string) * W :=
      if String.eqb (tool a) "_Exception"
      then ExceptionTool_call (toolInput a) w
      else match obj_get (toLowerCase (tool a)) byName with
           | Some t => (s <- call t (toolInput a) ;; ret (Some s)) w
           | None => (inr (Some (tool a +:+ " is not a valid tool, try another one.")), w)
           end in
    match attempt with
    | (inr o, w') => (inr (mkStep a (nullish o "")), w')
    | (inl (ToolInputParsingException msg out as e), w') =>
        match toolInputObservation ex e with
        | Some obs =>
            (o <- ExceptionTool_call (Some obs) ;; ret (mkStep a (nullish o ""))) w'
        | None => (inl e, w')
        end
    | (inl _, w') => (inr (mkStep a ""), w')
    end.

(** [this.agent.returnValues[0]] as a computed key. *)
Definition firstReturnKey (ag : Agent) : string :=
  match agentReturnValues ag with
  | k :: _ => k
  | [] => "undefined"
  end.

(** How one pass through the loop body ends. *)
Inductive Cycle :=
| Returned (output : ChainValues)
| Continue (steps : list AgentStep).

(** The body of the [while] loop (lines 560-652). *)
Definition callCycle (ex : AgentExecutor) (byName : JsObject Tool)
    (inputs : ChainValues) (steps : list AgentStep) : M W Cycle :=
  output <- planOrRecover ex steps inputs ;;
  match output with
  | Finish f => out <- getOutput ex steps f ;; ret (Returned out)
  | _ =>
      newSteps <- mapM (callAction ex byName) (actionsOf output) ;;
      let steps' := (steps ++ newSteps) in
      match last steps' with
      | None => throw (TypeError "Cannot read properties of undefined (reading 'action')")
      | Some lastStep =>
          match obj_get (toLowerCase (tool (action lastStep))) byName with
          | Some lastTool =>
              if returnDirect lastTool
              then out <- getOutput ex steps'
                            (mkFinish {[ firstReturnKey (agent ex) :=
                                           VString (observation lastStep) ]} "") ;;
                   ret (Returned out)
              else ret (Continue steps')
          | None => ret (Continue steps')
          end
      end
  end.

(** What follows the loop (lines 655-661). *)
Definition afterLoop (ex : AgentExecutor) (inputs : ChainValues)
    (steps : list AgentStep) : M W ChainValues :=
  finish <- returnStoppedResponse (agent ex) (earlyStoppingMethod ex) steps inputs ;;
  getOutput ex steps finish.

(** How [_call] settles: its outcome, with the number of cycles
    completed and the steps recorded when its last pass through the
    loop test began. *)
Record RunEnd := mkRunEnd {
  endIterations : Z;
  endSteps : list AgentStep;
  endResult : Exn + ChainValues;
  endWorld : W
}.

(** The [while] loop and what follows it (lines 559-661).  [fuel] bounds
    the passes; [None] is a run that has not settled within it. *)
Fixpoint callLoop (fuel : nat) (ex : AgentExecutor) (byName : JsObject Tool)
    (inputs : ChainValues) (steps : list AgentStep) (iterations : Z) (w : W)
    : option RunEnd :=
  match fuel with
  | O => None
  | S fuel' =>
      if shouldContinue ex iterations then
        match callCycle ex byName inputs steps w with
        | (inl e, w') => Some (mkRunEnd iterations steps (inl e) w')
        | (inr (Returned out), w') => Some (mkRunEnd iterations steps (inr out) w')
        | (inr (Continue steps'), w') =>
            callLoop fuel' ex byName inputs steps' (iterations + 1) w'
        end
      else
        match afterLoop ex inputs steps w with
        | (r, w') => Some (mkRunEnd iterations steps r w')
        end
  end.

Definition _call (fuel : nat) (ex : AgentExecutor) (inputs : ChainValues) (w : W)
    : option ((Exn + ChainValues) * W) :=
  match callLoop fuel ex (toolsByName ex) inputs [] 0 w with
  | Some r => Some (endResult r, endWorld r)
  | None => None
  end.

(** [_returnStoppedResponse] (lines 797-809). *)
Definition _returnStoppedResponse (earlyStoppingMethod : string) : Exn + AgentFinish :=
  if String.eqb earlyStoppingMethod "force"
  then inr (mkFinish {[ "output" :=
              VString "Agent stopped due to iteration limit or time limit." ]} "")
  else inl (Error ("Got unsupported early_stopping_method: " +:+ earlyStoppingMethod)).

(** *** The step executor and the return builder of the iterator *)

(** [nameToToolMap] (lines 191-196): the tools under their names as
    they are. *)
Definition nameToToolMap (ex : AgentExecutor) : JsObject Tool :=
  Object_fromEntries (map (fun t => (name t, t)) (tools ex)).

(** The body of the [for] loop of [_takeNextStep] (lines 718-760).
    The table is looked up by its own keys. *)
Definition takeAction (ex : AgentExecutor) (nameToolMap : JsObject Tool)
    (agentAction : AgentAction) : M W AgentStep :=
  obs <- match obj_get (tool agentAction) nameToolMap with
         | Some t =>
             try_catch (call t (toolInput agentAction))
               (fun e =>
                  match e with
                  | ToolInputParsingException _ _ =>
                      match toolInputObservation ex e with
                      | Some o => ExceptionTool_call o
                      | None => throw e
                      end
                  | _ => ret ""
                  end)
         | None =>
             ret (tool agentAction +:+
                  " is not a valid tool, try another available tool: " +:+
                  join ", " (Object_keys nameToolMap))
         end ;;
  ret (mkStep agentAction obs).

(** [_takeNextStep] (lines 664-762). *)
Definition _takeNextStep (ex : AgentExecutor) (nameToolMap : JsObject Tool)
    (inputs : ChainValues) (intermediateSteps : list AgentStep)
    : M W (AgentFinish + list AgentStep) :=
  output <- planOrRecover ex intermediateSteps inputs ;;
  match output with
  | Finish f => ret (inl f)
  | _ => result <- mapM (takeAction ex nameToolMap) (actionsOf output) ;;
         ret (inr result)
  end.

(** [_return] (lines 764-777). *)
Definition _return (ex : AgentExecutor) (output : AgentFinish)
    (intermediateSteps : list AgentStep) : ChainValues :=
  if returnIntermediateSteps ex
  then <["intermediateSteps" := VSteps intermediateSteps]> (returnValues output)
  else returnValues output.

(** [_getToolReturn] (lines 779-795). *)
Definition _getToolReturn (ex : AgentExecutor) (nextStepOutput : AgentStep)
    : option AgentFinish :=
  let nameToolMap := toolsByName ex in
  let returnValueKey :=
    match agentReturnValues (agent ex) with k :: _ => k | [] => "output" end in
  match obj_get (tool (action nextStepOutput)) nameToolMap with
  | Some t =>
      if returnDirect t
      then Some (mkFinish {[ returnValueKey :=
                               VString (observation nextStepOutput) ]} "")
      else None
  | None => None
  end.

(** *** [AgentExecutorIterator] (lines 151-380) *)

Record AgentExecutorIterator := mkIterator {
  agentExecutor : AgentExecutor;
  inputs : ChainValues;
  _finalOutputs : option ChainValues;
  intermediateSteps : list AgentStep;
  iterations : Z
}.

(** The constructor (lines 198-206) with the field initialisers. *)
Definition AgentExecutorIterator_new (ex : AgentExecutor) (ins : ChainValues)
    : AgentExecutorIterator :=
  mkIterator ex ins None [] 0.

(** Methods run on the iterator and the world. *)
Definition MI (A : Type) : Type := M (AgentExecutorIterator * W) A.

Definition this : MI AgentExecutorIterator := fun s => (inr (fst s), s).
Definition update (f : AgentExecutorIterator -> AgentExecutorIterator) : MI unit :=
  fun s => (inr tt, (f (fst s), snd s)).
Definition await {A} (m : M W A) : MI A :=
  fun s => match m (snd s) with (r, w') => (r, (fst s, w')) end.

Definition set_finalOutputs (v : option ChainValues) (it : AgentExecutorIterator) :=
  mkIterator (agentExecutor it) (inputs it) v (intermediateSteps it) (iterations it).
Definition set_intermediateSteps (l : list AgentStep) (it : AgentExecutorIterator) :=
  mkIterator (agentExecutor it) (inputs it) (_finalOutputs it) l (iterations it).
Definition set_iterations (n : Z) (it : AgentExecutorIterator) :=
  mkIterator (agentExecutor it) (inputs it) (_finalOutputs it) (intermediateSteps it) n.

(** [setFinalOutputs] (lines 176-183). *)
Definition setFinalOutputs (value : option ChainValues) : MI unit :=
  update (set_finalOutputs None) ;;;
  match value with
  | Some v =>
      it <- this ;;
      preparedOutputs <- await (prepOutputs (agentExecutor it) (inputs it) v true) ;;
      update (set_finalOutputs (Some preparedOutputs))
  | None => ret tt
  end.

(** [reset] (lines 212-216). *)
Definition reset (it : AgentExecutorIterator) : AgentExecutorIterator :=
  set_finalOutputs None (set_iterations 0 (set_intermediateSteps [] it)).

(** [updateIterations] (lines 218-220). *)
Definition updateIterations (it : AgentExecutorIterator) : AgentExecutorIterator :=
  set_iterations (iterations it + 1) it.

(** [_executeNextStep] (lines 286-295). *)
Definition _executeNextStep : MI (AgentFinish + list AgentStep) :=
  it <- this ;;
  await (_takeNextStep (agentExecutor it) (nameToToolMap (agentExecutor it))
           (inputs it) (intermediateSteps it)).

(** [_processNextStepOutput] (lines 301-340). *)
Definition _processNextStepOutput (nextStepOutput : AgentFinish + list AgentStep)
    : MI ChainValues :=
  match nextStepOutput with
  | inl finish =>
      it <- this ;;
      let output := _return (agentExecutor it) finish (intermediateSteps it) in
      setFinalOutputs (Some output) ;;;
      ret output
  | inr newSteps =>
      update (fun it =>
                set_intermediateSteps (intermediateSteps it ++ newSteps) it) ;;;
      match newSteps with
      | [nextStep] =>
          it <- this ;;
          match _getToolReturn (agentExecutor it) nextStep with
          | Some toolReturn =>
              setFinalOutputs
                (Some (_return (agentExecutor it) toolReturn (intermediateSteps it)))
          | None => ret tt
          end
      | _ => ret tt
      end ;;;
      ret {[ "intermediateSteps" := VSteps newSteps ]}
  end.

(** [_stop] (lines 342-355). *)
Definition _stop : MI ChainValues :=
  it <- this ;;
  output <- await (returnStoppedResponse (agent (agentExecutor it))
                     (earlyStoppingMethod (agentExecutor it))
                     (intermediateSteps it) (inputs it)) ;;
  let returnedOutput := _return (agentExecutor it) output (intermediateSteps it) in
  setFinalOutputs (Some returnedOutput) ;;;
  ret returnedOutput.

(** [JSON.stringify(value, null, 2)], which only words an error message. *)
Variable JSON_stringify : ChainValues -> string.

(** [_callNext] (lines 357-379). *)
Definition _callNext : MI ChainValues :=
  it <- this ;;
  match _finalOutputs it with
  | Some fo => throw (Error ("Final outputs already reached: " +:+ JSON_stringify fo))
  | None =>
      if negb (shouldContinue (agentExecutor it) (iterations it)) then _stop
      else
        nextStepOutput <- _executeNextStep ;;
        output <- _processNextStepOutput nextStepOutput ;;
        update updateIterations ;;;
        ret output
  end.

(** [streamIterator] (lines 222-251) as the generator object it makes:
    where the generator is suspended, and what one [next()] does. *)
Inductive GeneratorState := SuspendedStart | SuspendedYield | Completed.

Inductive IteratorResult :=
| Yielded (value : ChainValues)
| Done (value : option ChainValues).

(** One pass through [while (true)]: up to the [yield], the [return] or
    the [throw]. *)
Definition streamIterator_body : MI IteratorResult :=
  try_catch
    (result <- _callNext ;; ret (Yielded result))
    (fun e =>
       if startsWith (message_of e) "Final outputs already reached: "
       then it <- this ;;
            match _finalOutputs it with
            | None => throw e
            | Some fo => ret (Done (Some fo))
            end
       else throw e).

Definition streamIterator_next (g : GeneratorState)
    (s : AgentExecutorIterator * W)
    : (Exn + IteratorResult) * GeneratorState * (AgentExecutorIterator * W) :=
  let run s :=
    match streamIterator_body s with
    | (inr (Yielded v), s') => (inr (Yielded v), SuspendedYield, s')
    | (r, s') => (r, Completed, s')
    end in
  match g with
  | SuspendedStart => run (reset (fst s), snd s)
  | SuspendedYield => run s
  | Completed => (inr (Done None), Completed, s)
  end.

(** Pulling until the generator is done: its return value, or the error
    it threw.  [fuel] bounds the pulls. *)
Fixpoint drain (fuel : nat) (g : GeneratorState) (s : AgentExecutorIterator * W)
    : option ((Exn + option ChainValues) * (AgentExecutorIterator * W)) :=
  match fuel with
  | O => None
  | S fuel' =>
      match streamIterator_next g s with
      | (inr (Yielded _), g', s') => drain fuel' g' s'
      | (inr (Done v), _, s') => Some (inr v, s')
      | (inl e, _, s') => Some (inl e, s')
      end
  end.

(** [streamIterator()] pulled to its end. *)
Definition streamIterator (fuel : nat) (it : AgentExecutorIterator) (w : W) :=
  drain fuel SuspendedStart (it, w).

(** No tool fails on its input while the policy is to rethrow. *)
Definition inputs_accepted (ex : AgentExecutor) : Prop :=
  handleParsingErrors ex = HBool false ->
  forall t x w msg out w', In t (tools ex) ->
    call t x w <> (inl (ToolInputParsingException msg out), w').

(** What an iterator is made for: its executor and its inputs.  A
    method keeps them when no call of it changes them. *)
Definition configuration (it : AgentExecutorIterator) : AgentExecutor * ChainValues :=
  (agentExecutor it, inputs it).

Definition keepsConfiguration {A} (m : MI A) : Prop :=
  forall s, configuration (fst (snd (m s))) = configuration (fst s).

(** A result of [_call] as the return of the generator. *)
Definition asReturn (r : (Exn + ChainValues) * W) : (Exn + option ChainValues) * W :=
  (match fst r with inl e => inl e | inr v => inr (Some v) end, snd r).

(** What a pulled-out iterator leaves to its caller: the value returned
    or the error thrown, and the world. *)
Definition drained
    (r : option ((Exn + option ChainValues) * (AgentExecutorIterator * W)))
    : option ((Exn + option ChainValues) * W) :=
  match r with
  | Some (v, (_, w)) => Some (v, w)
  | None => None
  end.

End Executor.

(** ** The continuation predicate of the specification

    The specification's wording of the predicate, with a wall-clock
    budget evaluated next to the iteration bound; [shouldContinue] is
    compared with it below. *)
Definition spec_shouldContinue (maxIterations maxExecutionTime : option Z)
    (iterations elapsed : Z) : bool :=
  match maxIterations with None => true | Some m => iterations <? m end
  && match maxExecutionTime with None => true | Some t => elapsed <? t end.

(** ** Concrete collaborators

    Tools and decision-makers without a state of their own, on which the
    two drivers are run below. *)
Module Scenario.

(** A tool that hands its input back. *)
Definition echoTool (n : string) (direct : bool) : @Tool unit :=
  mkTool n direct (fun x => ret (nullish x "")).

(** A tool whose implementation fails. *)
Definition brokenTool (n : string) : @Tool unit :=
  mkTool n false (fun _ => throw (Error "connection refused")).

(** A tool that cannot read its input. *)
Definition pickyTool (n : string) : @Tool unit :=
  mkTool n false
    (fun _ => throw (ToolInputParsingException "Received tool input did not match expected schema" None)).

(** [returnStoppedResponse] as [_returnStoppedResponse] gives it. *)
Definition stopped (m : string) (_ : list AgentStep) (_ : ChainValues)
    : M unit AgentFinish :=
  match _returnStoppedResponse m with
  | inr f => ret f
  | inl e => throw e
  end.

(** A single-action decision-maker that asks for the same action
    forever. *)
Definition insists (a : AgentAction) : @Agent unit :=
  mkAgent single ["output"] (fun _ _ => ret (OneAction a)) stopped (fun _ _ => ret ∅).

(** A decision-maker whose output never parses. *)
Definition garbles : @Agent unit :=
  mkAgent single ["output"]
    (fun _ _ => throw (OutputParserException "Could not parse LLM output" None None false))
    stopped (fun _ _ => ret ∅).

(** A multi-action decision-maker. *)
Definition fansOut (l : list AgentAction) : @Agent unit :=
  mkAgent multi ["output"] (fun _ _ => ret (ManyActions l)) stopped (fun _ _ => ret ∅).

(** [prepOutputs] of a chain without memory, asked for the outputs only. *)
Definition plainOutputs (_ outputs : ChainValues) (_ : bool) : M unit ChainValues :=
  ret outputs.

Definition executor (ag : @Agent unit) (ts : list (@Tool unit)) (keepSteps : bool)
    (bound : Z) (policy : HandleParsingErrors) : @AgentExecutor unit :=
  mkExecutor ag ts keepSteps (Some bound) "force" policy plainOutputs.

Definition ask (t q : string) : AgentAction := mkAction t (Some q) "".

Definition stopMessage : Value :=
  VString "Agent stopped due to iteration limit or time limit.".

(** The executors of the runs below. *)
Definition exBroken : AgentExecutor :=
  executor (insists (ask "lookup" "q")) [brokenTool "lookup"] true 1 (HBool false).

Definition exPicky : AgentExecutor :=
  executor (insists (ask "lookup" "q")) [pickyTool "lookup"] false 2 (HBool false).

Definition exUnknown : AgentExecutor :=
  executor (insists (ask "search" "q")) [echoTool "echo" false] true 1 (HBool false).

Definition exDirect : AgentExecutor :=
  executor (insists (ask "Search" "q")) [echoTool "Search" true] false 2 (HBool false).

Definition exGarbled : AgentExecutor :=
  executor garbles [echoTool "echo" false] true 2 (HString "use X").

Definition exEcho : AgentExecutor :=
  executor (insists (ask "echo" "q")) [echoTool "echo" false] true 2 (HBool false).

Definition inFanOut : AgentExecutorInput :=
  mkInput (fansOut [ask "echo" "a"; ask "final" "b"])
    [echoTool "echo" false; echoTool "final" true] None None None None plainOutputs.

(** A single-action decision-maker that asks once and then finishes
    with what it has observed. *)
Definition asksOnce (a : AgentAction) : @Agent unit :=
  mkAgent single ["output"]
    (fun steps _ =>
       match steps with
       | [] => ret (OneAction a)
       | s :: _ => ret (Finish (mkFinish {[ "output" := VString (observation s) ]} "done"))
       end)
    stopped (fun _ _ => ret ∅).

Definition exOnce : AgentExecutor :=
  executor (asksOnce (ask "echo" "q")) [echoTool "echo" false] true 2 (HBool false).

Definition json (_ : ChainValues) : string := "{}".

End Scenario.

(** ** The stream of the executor *)

Section Streaming.

Context {W : Type} {SM : StringMethods}.
Variable JSON_stringify : ChainValues -> string.

(** What the consumer of the generator sees: the values yielded, in
    order, and then the value returned or the error thrown. *)
Fixpoint pulls (fuel : nat) (g : GeneratorState) (s : @AgentExecutorIterator W * W)
    : option (list ChainValues * (Exn + option ChainValues)
              * (@AgentExecutorIterator W * W)) :=
  match fuel with
  | O => None
  | S fuel' =>
      match streamIterator_next JSON_stringify g s with
      | (inr (Yielded v), g', s') =>
          match pulls fuel' g' s' with
          | Some (vs, r, s'') => Some (v :: vs, r, s'')
          | None => None
          end
      | (inr (Done v), _, s') => Some ([], inr v, s')
      | (inl e, _, s') => Some ([], inl e, s')
      end
  end.

(** [_streamIterator] (lines 811-829): the steps it yields, every value
    of the inner generator being an object, and the error it throws, if
    any; the value the inner generator returns is dropped. *)
Definition _streamIterator (fuel : nat) (ex : @AgentExecutor W) (inputs : ChainValues)
    (w : W) : option (list ChainValues * option Exn * W) :=
  match pulls fuel SuspendedStart (AgentExecutorIterator_new ex inputs, w) with
  | Some (vs, r, (_, w')) =>
      Some (vs, match r with inl e => Some e | inr _ => None end, w')
  | None => None
  end.

End Streaming.

(** ** The tree-shaking check (lines 1-111)

    The types of ./types.js are not among the sources; the values are
    the ones the functions tell apart.  The parsed package.json and the
    bundler are given: [rollup] is the list of the [console.log] calls
    it makes while it bundles an entry point, or the error it throws. *)

(** The [import] of an exports entry: a string, or anything else. *)
Inductive ImportField :=
| ImportPath (path : string)
| ImportOther.

(** [ExportsMapValue | string]. *)
Inductive ExportsValue :=
| ExportPath (path : string)
| ExportMap (importField : option ImportField).

(** [string | RegExp]. *)
Inductive External :=
| ExternalName (n : string)
| ExternalPattern (source : string).

Record PackageJSON := mkPackage {
  exports : option (JsObject ExportsValue);
  dependencies : option (JsObject string);
  peerDependencies : option (JsObject string)
}.

(** [Object.entries]. *)
Definition Object_entries {A} (o : JsObject A) : list (string * A) :=
  flat_map (fun k => match obj_get k o with Some v => [(k, v)] | None => [] end)
    (Object_keys o).

(** What one pass of the loop of [listEntrypoints] pushes (lines 26-37). *)
Definition pushed (entry : string * ExportsValue) : list string :=
  if String.eqb (fst entry) "./package.json" then []
  else match snd entry with
       | ExportPath value => [value]
       | ExportMap (Some (ImportPath p)) => if String.eqb p "" then [] else [p]
       | ExportMap _ => []
       end.

(** [listEntrypoints] (lines 9-41). *)
Definition listEntrypoints (pkg : PackageJSON) : Exn + list string :=
  let exportsWithoutPackageJSON :=
    match exports pkg with
    | Some e =>
        Some (Object_fromEntries
                (List.filter (fun kv => negb (String.eqb (fst kv) "./package.json"))
                   (Object_entries e)))
    | None => None
    end in
  match exportsWithoutPackageJSON with
  | None => inl (Error "No exports found in package.json")
  | Some o =>
      inr (fold_left (fun entrypoints entry => entrypoints ++ pushed entry)
             (Object_entries o) [])
  end.

(** [listExternals] (lines 49-58). *)
Definition listExternals (pkg : PackageJSON) (extraInternals : list External)
    : list External :=
  map ExternalName (Object_keys (nullish (dependencies pkg) []))
  ++ map ExternalName (Object_keys (nullish (peerDependencies pkg) []))
  ++ extraInternals.

Section TreeShaking.

Context {SM : StringMethods}.

(** What the replacement of [console.log] adds to [sideEffects] for one
    call (lines 75-80). *)
Definition sideEffectLine (args : list string) : string :=
  let line := join " " args in
  if startsWith (trim line) "First side effect in"
  then line +:+ String (ascii_of_N 10) ""
  else "".

Definition sideEffectsOf (calls : list (list string)) : string :=
  fold_left (fun sideEffects args => sideEffects +:+ sideEffectLine args) calls "".

Record Report := mkReport {
  reportLog : string;
  hasSideEffects : bool
}.

Definition reportOf (calls : list (list string)) : Report :=
  let sideEffects := sideEffectsOf calls in
  mkReport sideEffects (negb (String.eqb sideEffects "")).

(** The first loop of [checkTreeShaking] (lines 72-92); [reportMap] is
    the [Map], in insertion order. *)
Fixpoint bundleAll (rollup : list External -> string -> Exn + list (list string))
    (externals : list External) (entrypoints : list string)
    (reportMap : list (string * Report)) : Exn + list (string * Report) :=
  match entrypoints with
  | [] => inr reportMap
  | entrypoint :: rest =>
      match rollup externals entrypoint with
      | inl e => inl e
      | inr calls =>
          bundleAll rollup externals rest (obj_set entrypoint (reportOf calls) reportMap)
      end
  end.

(** Which function [console.log] is. *)
Inductive ConsoleLog := OriginalLog | FilterLog.

(** What a call of [checkTreeShaking] leaves: the lines printed by the
    original [console.log], the exit code of [process.exit], the
    function left in [console.log], and the error thrown. *)
Record Outcome := mkOutcome {
  printed : list string;
  exitCode : option Z;
  consoleLog : ConsoleLog;
  thrown : option Exn
}.

(** The second loop (lines 96-104). *)
Definition failureLines (reportMap : list (string * Report)) : list string :=
  flat_map (fun er =>
              if hasSideEffects (snd er)
              then ["---------------------------------";
                    "Tree shaking failed for " +:+ fst er;
                    reportLog (snd er)]
              else []) reportMap.

(** [checkTreeShaking] (lines 60-111). *)
Definition checkTreeShaking (rollup : list External -> string -> Exn + list (list string))
    (pkg : PackageJSON) (extraInternals : option (list External)) : Outcome :=
  let externals := listExternals pkg (nullish extraInternals []) in
  match listEntrypoints pkg with
  | inl e => mkOutcome [] None OriginalLog (Some e)
  | inr entrypoints =>
      match bundleAll rollup externals entrypoints [] with
      | inl e => mkOutcome [] None FilterLog (Some e)
      | inr reportMap =>
          let failed := existsb (fun er => hasSideEffects (snd er)) reportMap in
          if failed
          then mkOutcome (failureLines reportMap) (Some 1) OriginalLog None
          else mkOutcome (failureLines reportMap ++ ["Tree shaking checks passed!"])
                 None OriginalLog None
      end
  end.

End TreeShaking.

(** ** Further concrete inputs

    A package.json, a bundler and executors on which the properties of
    the last part are applied. *)
Module Cases.

Import Scenario.

(** A package.json with five exports, two dependencies and a peer
    dependency. *)
Definition packageJson : PackageJSON :=
  mkPackage
    (Some [ (".", ExportMap (Some (ImportPath "./index.js")));
            ("./package.json", ExportPath "./package.json");
            ("./tools", ExportMap (Some (ImportPath "./tools.js")));
            ("./legacy", ExportPath "./legacy.cjs");
            ("./types", ExportMap None) ])
    (Some [ ("zod", "^3.22.3"); ("uuid", "^9.0.0") ])
    (Some [ ("rollup", "^4.5.2") ]).

(** A bundler that logs a side effect in ./tools.js only. *)
Definition bundler (_ : list External) (input : string) : Exn + list (list string) :=
  if String.eqb input "./tools.js"
  then inr [ ["Bundling"; input];
             ["  First side effect in"; "./tools.js"; "is at (1:0)"] ]
  else inr [ ["Bundling"; input] ].

(** A multi-action decision-maker that plans nothing. *)
Definition exIdle : AgentExecutor :=
  executor (fansOut []) [echoTool "echo" false] false 2 (HBool true).

(** A decision-maker whose model cannot be reached. *)
Definition unreachable : @Agent unit :=
  mkAgent single ["output"] (fun _ _ => throw (Error "model unavailable"))
    stopped (fun _ _ => ret ∅).

Definition exDown : AgentExecutor :=
  executor unreachable [echoTool "echo" false] false 2 (HString "try again").

Definition exPatient : AgentExecutor :=
  executor (insists (ask "lookup" "q")) [pickyTool "lookup"] false 2 (HBool true).

Definition exSearch : AgentExecutor :=
  executor (insists (ask "search" "q")) [echoTool "search" true] true 2 (HBool false).

Definition exTwins : AgentExecutor :=
  executor (insists (ask "echo" "q")) [echoTool "Echo" false; echoTool "echo" true]
    false 2 (HBool false).

End Cases.

(** * Properties *)

(** ** Tables *)

Section Tables.

Context {A : Type}.
Implicit Types (o : JsObject A) (k : string) (v : A).

Lemma obj_get_set_eq o k v : obj_get k (obj_set k v o) = Some v.
Proof.
  induction o as [|[k' v'] o IH]; simpl.
  - now rewrite String.eqb_refl.
  - destruct (String.eqb k k') eqn:E; simpl; rewrite ?String.eqb_refl, ?E; auto.
Qed.

Lemma obj_get_set_ne o k k' v : k <> k' -> obj_get k' (obj_set k v o) = obj_get k' o.
Proof.
  intros Hne. induction o as [|[k0 v0] o IH]; simpl.
  - destruct (String.eqb k' k) eqn:E; auto.
    apply String.eqb_eq in E. congruence.
  - destruct (String.eqb k k0) eqn:E; simpl.
    + apply String.eqb_eq in E. subst k0.
      destruct (String.eqb k' k) eqn:E'; auto.
      apply String.eqb_eq in E'. congruence.
    + now rewrite IH.
Qed.

Lemma obj_get_In o k v : obj_get k o = Some v -> In (k, v) o.
Proof.
  induction o as [|[k' v'] o IH]; simpl; [discriminate|].
  destruct (String.eqb k k') eqn:E.
  - apply String.eqb_eq in E. intros [= ->]. subst. now left.
  - intros H. right. auto.
Qed.

Lemma obj_get_None o k : obj_get k o = None <-> ~ In k (map fst o).
Proof.
  induction o as [|[k' v'] o IH]; simpl.
  - tauto.
  - destruct (String.eqb k k') eqn:E.
    + apply String.eqb_eq in E. subst. split; [discriminate|]. intros H. exfalso. auto.
    + apply String.eqb_neq in E. rewrite IH. split.
      * intros H [H'|H']; [congruence|auto].
      * intros H H'. auto.
Qed.

Lemma obj_set_keys o k v k' :
  In k' (map fst (obj_set k v o)) <-> k' = k \/ In k' (map fst o).
Proof.
  induction o as [|[k0 v0] o IH]; simpl.
  - intuition.
  - destruct (String.eqb k k0) eqn:E; simpl.
    + apply String.eqb_eq in E. subst. intuition.
    + rewrite IH. intuition.
Qed.

Lemma fold_set_get (es : list (string * A)) o k v :
  obj_get k (fold_left (fun o e => obj_set (fst e) (snd e) o) es o) = Some v ->
  In (k, v) es \/ obj_get k o = Some v.
Proof.
  revert o. induction es as [|[k0 v0] es IH]; intros o; simpl; [auto|].
  intros H. apply IH in H. destruct H as [H|H]; [auto|].
  destruct (String.eqb k0 k) eqn:E.
  - apply String.eqb_eq in E. subst. rewrite obj_get_set_eq in H.
    injection H as ->. auto.
  - apply String.eqb_neq in E. rewrite obj_get_set_ne in H by assumption. auto.
Qed.

Lemma fold_set_keys (es : list (string * A)) o k :
  In k (map fst (fold_left (fun o e => obj_set (fst e) (snd e) o) es o)) <->
  In k (map fst es) \/ In k (map fst o).
Proof.
  revert o. induction es as [|[k0 v0] es IH]; intros o; simpl; [tauto|].
  rewrite IH, obj_set_keys. intuition.
Qed.

(** What a table built from entries holds comes from the entries. *)
Lemma fromEntries_get (es : list (string * A)) k v :
  obj_get k (Object_fromEntries es) = Some v -> In (k, v) es.
Proof.
  intros H. apply fold_set_get in H. destruct H as [H|H]; [assumption|discriminate].
Qed.

Lemma fromEntries_keys (es : list (string * A)) k :
  In k (map fst (Object_fromEntries es)) <-> In k (map fst es).
Proof. unfold Object_fromEntries. rewrite fold_set_keys. simpl. tauto. Qed.

Lemma insert_index_In (x y : N * string) l :
  In y (insert_index x l) <-> y = x \/ In y l.
Proof.
  induction l as [|z l IH]; simpl.
  - intuition.
  - destruct (fst x <=? fst z)%N; simpl; [intuition|].
    rewrite IH. intuition.
Qed.

(** [Object.keys] lists the own keys, all of them and nothing else. *)
Lemma Object_keys_In o k : In k (Object_keys o) <-> In k (map fst o).
Proof.
  unfold Object_keys. rewrite in_app_iff.
  induction o as [|[k0 v0] o IH]; simpl.
  - tauto.
  - destruct (array_index k0) as [n|] eqn:E; simpl.
    + rewrite in_map_iff in *. split.
      * intros [[[m x] [Hx Hin]]|H].
        -- simpl in Hx. subst x. apply insert_index_In in Hin.
           destruct Hin as [[= -> ->]|Hin]; [now left|].
           right. apply IH. left. exists (m, k). auto.
        -- right. apply IH. now right.
      * intros [->|H].
        -- left. exists (n, k). split; [reflexivity|]. apply insert_index_In. now left.
        -- apply IH in H. destruct H as [[x [Hx Hin]]|H]; [|now right].
           left. exists x. split; [assumption|]. apply insert_index_In. now right.
    + rewrite <- IH. tauto.
Qed.

Lemma obj_get_app o o' k :
  obj_get k (o ++ o') =
  match obj_get k o with Some v => Some v | None => obj_get k o' end.
Proof.
  induction o as [|[k0 v0] o IH]; simpl; [reflexivity|].
  now destruct (String.eqb k k0).
Qed.

Lemma fold_set_last (es : list (string * A)) o k :
  obj_get k (fold_left (fun o e => obj_set (fst e) (snd e) o) es o) =
  match obj_get k (rev es) with Some v => Some v | None => obj_get k o end.
Proof.
  revert o. induction es as [|[k0 v0] es IH]; intros o; simpl; [reflexivity|].
  rewrite IH, obj_get_app. destruct (obj_get k (rev es)); [reflexivity|]. simpl.
  destruct (String.eqb k k0) eqn:E.
  - apply String.eqb_eq in E. subst. apply obj_get_set_eq.
  - apply String.eqb_neq in E. apply obj_get_set_ne. congruence.
Qed.

(** Under a key a table built from entries holds the last entry of that
    key. *)
Lemma fromEntries_last (es : list (string * A)) k :
  obj_get k (Object_fromEntries es) = obj_get k (rev es).
Proof.
  unfold Object_fromEntries. rewrite fold_set_last.
  now destruct (obj_get k (rev es)).
Qed.

Lemma obj_get_rekeyed (f g : A -> string) (l : list A) (kf kg : string) :
  (forall y, In y l -> (f y = kf <-> g y = kg)) ->
  obj_get kf (map (fun y => (f y, y)) l) = obj_get kg (map (fun y => (g y, y)) l).
Proof.
  induction l as [|y l IH]; intros H; simpl; [reflexivity|].
  pose proof (H y (or_introl eq_refl)) as Hy.
  destruct (String.eqb kf (f y)) eqn:Ef, (String.eqb kg (g y)) eqn:Eg.
  - reflexivity.
  - apply String.eqb_eq in Ef. apply String.eqb_neq in Eg.
    exfalso. apply Eg. symmetry. now apply Hy.
  - apply String.eqb_neq in Ef. apply String.eqb_eq in Eg.
    exfalso. apply Ef. symmetry. now apply Hy.
  - apply IH. intros y' Hin. apply H. now right.
Qed.

(** Two keyings of the same values find the same value under keys that
    pick out the same values. *)
Lemma fromEntries_rekeyed (f g : A -> string) (l : list A) (kf kg : string) :
  (forall y, In y l -> (f y = kf <-> g y = kg)) ->
  obj_get kf (Object_fromEntries (map (fun y => (f y, y)) l)) =
  obj_get kg (Object_fromEntries (map (fun y => (g y, y)) l)).
Proof.
  intros H. rewrite !fromEntries_last, <- !map_rev.
  apply obj_get_rekeyed. intros y Hin. apply H. now apply in_rev.
Qed.

End Tables.

(** ** Strings *)

Lemma startsWith_app p s : startsWith (p +:+ s) p = true.
Proof.
  unfold startsWith. induction p as [|c p IH].
  - change ("" +:+ s) with s. now destruct s.
  - change (String c p +:+ s) with (String c (p +:+ s)). simpl.
    destruct (ascii_dec c c); [assumption|congruence].
Qed.

(** ** The executor *)

Section Properties.

Context {W : Type} {SM : StringMethods}.
Implicit Types (ex : @AgentExecutor W) (t : @Tool W) (a : AgentAction) (w : W).

Lemma toolsByName_get ex k t :
  obj_get k (toolsByName ex) = Some t -> In t (tools ex) /\ k = toLowerCase (name t).
Proof.
  intros H. apply fromEntries_get in H. apply in_map_iff in H.
  destruct H as [t' [[= <- <-] Hin]]. auto.
Qed.

Lemma nameToToolMap_get ex k t :
  obj_get k (nameToToolMap ex) = Some t -> In t (tools ex) /\ k = name t.
Proof.
  intros H. apply fromEntries_get in H. apply in_map_iff in H.
  destruct H as [t' [[= <- <-] Hin]]. auto.
Qed.

(** The names the iterator's message lists are the names of the tools. *)
Lemma nameToToolMap_keys ex n :
  In n (Object_keys (nameToToolMap ex)) <-> exists t, In t (tools ex) /\ name t = n.
Proof.
  rewrite Object_keys_In. unfold nameToToolMap. rewrite fromEntries_keys, map_map. simpl.
  rewrite in_map_iff. split; intros [t [H1 H2]]; exists t; auto.
Qed.

(** A name that, lower-cased, is no key of the lower-cased table is no
    name of a tool. *)
Lemma unknown_as_spelt ex a :
  obj_get (toLowerCase (tool a)) (toolsByName ex) = None ->
  obj_get (tool a) (nameToToolMap ex) = None.
Proof.
  intros H.
  destruct (obj_get (tool a) (nameToToolMap ex)) as [t|] eqn:E; [|reflexivity].
  apply nameToToolMap_get in E. destruct E as [Hin Hn].
  apply obj_get_None in H. exfalso. apply H.
  unfold toolsByName. rewrite fromEntries_keys, map_map. simpl.
  apply in_map_iff. exists t. rewrite Hn. auto.
Qed.

(** The constructor leaves no return-direct tool to a multi-action
    decision-maker. *)
Lemma constructed_multi (input : @AgentExecutorInput W) ex t :
  AgentExecutor_new input = inr ex ->
  _agentActionType (agent ex) = multi -> In t (tools ex) -> returnDirect t = false.
Proof.
  unfold AgentExecutor_new. intros H Hm Hin.
  destruct (_agentActionType (inAgent input)) eqn:E.
  - injection H as <-. simpl in Hm. congruence.
  - destruct (List.find returnDirect (inTools input)) eqn:F; [discriminate|].
    injection H as <-. simpl in Hin.
    pose proof (find_none _ _ F t Hin) as Hn. assumption.
Qed.


(** *** Tactics for the monad *)

#[local] Arguments callAction : simpl never.
#[local] Arguments takeAction : simpl never.
#[local] Arguments toolsByName : simpl never.
#[local] Arguments nameToToolMap : simpl never.
#[local] Arguments getOutput : simpl never.
#[local] Arguments shouldContinue : simpl never.
#[local] Arguments setFinalOutputs : simpl never.
#[local] Arguments _processNextStepOutput : simpl never.
#[local] Arguments _return : simpl never.

Ltac unmonad :=
  repeat progress
    (unfold planOrRecover, ExceptionTool_call, ExceptionTool__call, await, this,
       update, bind, ret, throw, try_catch in *; simpl in * ).

(** *** The continuation predicate *)

Lemma shouldContinue_true ex (i : Z) :
  shouldContinue ex i = true <->
  maxIterations ex = None \/ exists m, maxIterations ex = Some m /\ i < m.
Proof.
  unfold shouldContinue. destruct (maxIterations ex) as [m|].
  - rewrite Z.ltb_lt. split.
    + intros H. right. exists m. auto.
    + intros [H|[m' [[= <-] H]]]; [discriminate|assumption].
  - split; auto.
Qed.

(** C8 (as amended). The continuation predicate looks at the iteration
    count alone: it holds exactly when [maxIterations] is undefined or
    [iterations < maxIterations]; the executor has no wall-clock budget.
    When it fails, both drivers end the run through the early-stop path,
    [returnStoppedResponse]. *)
Theorem shouldContinue_counts_iterations_only ex (i : Z) :
  (shouldContinue ex i = true <->
   maxIterations ex = None \/ exists m, maxIterations ex = Some m /\ i < m)
  /\ (forall fuel byName ins steps w,
        shouldContinue ex i = false ->
        callLoop (S fuel) ex byName ins steps i w =
        Some (mkRunEnd i steps (fst (afterLoop ex ins steps w))
                (snd (afterLoop ex ins steps w))))
  /\ (forall J ins steps w,
        shouldContinue ex i = false ->
        _callNext J (mkIterator ex ins None steps i, w) =
        _stop (mkIterator ex ins None steps i, w)).
Proof.
  split; [apply shouldContinue_true|]. split.
  - intros fuel byName ins steps w H. simpl. rewrite H.
    now destruct (afterLoop ex ins steps w).
  - intros J ins steps w H. unfold _callNext. unmonad. now rewrite H.
Qed.

(** *** The constructor *)

(** C9. With a multi-action decision-maker and a tool list that holds a
    return-direct tool, the constructor throws its configuration error:
    no executor is made, so no run starts. *)
Theorem multi_action_rejects_return_direct (input : @AgentExecutorInput W) t :
  _agentActionType (inAgent input) = multi ->
  In t (inTools input) ->
  returnDirect t = true ->
  exists t0, In t0 (inTools input) /\ returnDirect t0 = true /\
    AgentExecutor_new input =
    inl (Error ("Tool with return direct " +:+ name t0 +:+
                " not supported for multi-action agent.")).
Proof.
  intros Hm Hin Hd. unfold AgentExecutor_new. rewrite Hm.
  destruct (List.find returnDirect (inTools input)) as [t0|] eqn:F.
  - apply find_some in F. destruct F as [F1 F2]. exists t0. auto.
  - pose proof (find_none _ _ F t Hin) as Hn. congruence.
Qed.

(** *** The iterator starts afresh *)

Lemma keeps_ret {A} (a : A) : keepsConfiguration (W:=W) (ret a).
Proof. now intros s. Qed.

Lemma keeps_throw {A} e : keepsConfiguration (W:=W) (A:=A) (throw e).
Proof. now intros s. Qed.

Lemma keeps_this : keepsConfiguration (W:=W) this.
Proof. now intros s. Qed.

Lemma keeps_await {A} (m : M W A) : keepsConfiguration (await m).
Proof. intros s. unfold await. now destruct (m (snd s)). Qed.

Lemma keeps_update (f : @AgentExecutorIterator W -> @AgentExecutorIterator W) :
  (forall it, configuration (f it) = configuration it) ->
  keepsConfiguration (update f).
Proof. intros H s. apply H. Qed.

Lemma keeps_bind {A B} (m : @MI W A) (k : A -> @MI W B) :
  keepsConfiguration m -> (forall x, keepsConfiguration (k x)) ->
  keepsConfiguration (bind m k).
Proof.
  intros Hm Hk s. unfold bind. specialize (Hm s).
  destruct (m s) as [[e|x] s1]; simpl in *; [assumption|].
  now rewrite (Hk x s1).
Qed.

Lemma keeps_try_catch {A} (m : @MI W A) (h : Exn -> @MI W A) :
  keepsConfiguration m -> (forall e, keepsConfiguration (h e)) ->
  keepsConfiguration (try_catch m h).
Proof.
  intros Hm Hh s. unfold try_catch. specialize (Hm s).
  destruct (m s) as [[e|x] s1]; simpl in *; [|assumption].
  now rewrite (Hh e s1).
Qed.


Lemma keeps_setFinalOutputs v : keepsConfiguration (W:=W) (setFinalOutputs v).
Proof.
  unfold setFinalOutputs. apply keeps_bind; [now apply keeps_update|].
  intros _. destruct v as [v|]; [|apply keeps_ret].
  apply keeps_bind; [apply keeps_this|]. intros it.
  apply keeps_bind; [apply keeps_await|]. intros out. now apply keeps_update.
Qed.

Lemma keeps_processNextStepOutput nso :
  keepsConfiguration (W:=W) (_processNextStepOutput nso).
Proof.
  unfold _processNextStepOutput. destruct nso as [f|res].
  - apply keeps_bind; [apply keeps_this|]. intros it.
    apply keeps_bind; [apply keeps_setFinalOutputs|]. intros _. apply keeps_ret.
  - apply keeps_bind; [now apply keeps_update|]. intros _.
    apply keeps_bind; [|intros _; apply keeps_ret].
    destruct res as [|s [|s' res]]; try apply keeps_ret.
    apply keeps_bind; [apply keeps_this|]. intros it.
    destruct (_getToolReturn (agentExecutor it) s);
      [apply keeps_setFinalOutputs|apply keeps_ret].
Qed.

Lemma keeps_stop : keepsConfiguration (W:=W) _stop.
Proof.
  unfold _stop. apply keeps_bind; [apply keeps_this|]. intros it.
  apply keeps_bind; [apply keeps_await|]. intros out.
  apply keeps_bind; [apply keeps_setFinalOutputs|]. intros _. apply keeps_ret.
Qed.

Lemma keeps_callNext J : keepsConfiguration (W:=W) (_callNext J).
Proof.
  unfold _callNext. apply keeps_bind; [apply keeps_this|]. intros it.
  destruct (_finalOutputs it); [apply keeps_throw|].
  destruct (negb _); [apply keeps_stop|].
  apply keeps_bind.
  { unfold _executeNextStep. apply keeps_bind; [apply keeps_this|].
    intros it'. apply keeps_await. }
  intros nso. apply keeps_bind; [apply keeps_processNextStepOutput|]. intros out.
  apply keeps_bind; [now apply keeps_update|]. intros _. apply keeps_ret.
Qed.

Lemma keeps_body J : keepsConfiguration (W:=W) (streamIterator_body J).
Proof.
  unfold streamIterator_body. apply keeps_try_catch.
  - apply keeps_bind; [apply keeps_callNext|]. intros v. apply keeps_ret.
  - intros e. destruct (startsWith _ _); [|apply keeps_throw].
    apply keeps_bind; [apply keeps_this|]. intros it.
    destruct (_finalOutputs it); [apply keeps_ret|apply keeps_throw].
Qed.

Lemma next_keeps J g (s : @AgentExecutorIterator W * W) :
  configuration (fst (snd (streamIterator_next J g s))) = configuration (fst s).
Proof.
  unfold streamIterator_next. destruct g.
  - pose proof (keeps_body J (reset (fst s), snd s)) as H.
    destruct (streamIterator_body J (reset (fst s), snd s)) as [[e|[v|v]] s1]; exact H.
  - pose proof (keeps_body J s) as H.
    destruct (streamIterator_body J s) as [[e|[v|v]] s1]; exact H.
  - reflexivity.
Qed.

(** A run leaves the iterator with the executor and the inputs it was
    made for. *)
Lemma drain_keeps J fuel : forall g (s : @AgentExecutorIterator W * W) r s',
  drain J fuel g s = Some (r, s') ->
  configuration (fst s') = configuration (fst s).
Proof.
  induction fuel as [|fuel IH]; intros g s r s'; [discriminate|].
  cbn [drain]. pose proof (next_keeps J g s) as H.
  destruct (streamIterator_next J g s) as [[[e|[v|v]] g'] s1]; simpl in H.
  - intros [= _ <-]. assumption.
  - intros Hd. rewrite <- H. eapply IH; eauto.
  - intros [= _ <-]. assumption.
Qed.

(** C10. [streamIterator] starts by [reset]: iterations 0, no
    intermediate steps, no final outputs.  Whatever state the iterator
    [it] is in, the run is the one of a newly made iterator of the same
    executor and inputs; so is the run on the iterator [it'] that an
    earlier run of [it], pulled to its end, has left. *)
Theorem streamIterator_starts_afresh J (it : @AgentExecutorIterator W) fuel w :
  iterations (reset it) = 0
  /\ intermediateSteps (reset it) = []
  /\ _finalOutputs (reset it) = None
  /\ streamIterator_next J SuspendedStart (it, w) =
     streamIterator_next J SuspendedYield (reset it, w)
  /\ streamIterator J fuel it w =
     streamIterator J fuel (AgentExecutorIterator_new (agentExecutor it) (inputs it)) w
  /\ (forall fuel0 w0 r it' w',
        streamIterator J fuel0 it w0 = Some (r, (it', w')) ->
        streamIterator J fuel it' w =
        streamIterator J fuel
          (AgentExecutorIterator_new (agentExecutor it) (inputs it)) w).
Proof.
  assert (Hfresh : forall (x : @AgentExecutorIterator W),
             streamIterator J fuel x w =
             streamIterator J fuel
               (AgentExecutorIterator_new (agentExecutor x) (inputs x)) w).
  { intros x. destruct fuel; reflexivity. }
  repeat split; [apply Hfresh|].
  intros fuel0 w0 r it' w' Hd. apply drain_keeps in Hd.
  simpl in Hd. injection Hd as He Hi. rewrite Hfresh, He, Hi. reflexivity.
Qed.


(** *** Actions that name no tool *)

Lemma takeAction_unknown ex (m : JsObject (@Tool W)) a w :
  obj_get (tool a) m = None ->
  takeAction ex m a w =
  (inr (mkStep a (tool a +:+ " is not a valid tool, try another available tool: "
                  +:+ join ", " (Object_keys m))), w).
Proof. intros H. unfold takeAction. now rewrite H. Qed.

Lemma callAction_unknown ex (m : JsObject (@Tool W)) a w :
  tool a <> "_Exception" ->
  obj_get (toLowerCase (tool a)) m = None ->
  callAction ex m a w =
  (inr (mkStep a (tool a +:+ " is not a valid tool, try another one.")), w).
Proof.
  intros Hx H. unfold callAction. apply String.eqb_neq in Hx. now rewrite Hx, H.
Qed.

(** C3 (as amended). Take an action whose tool name is not the
    reserved [_Exception], is the lower-cased name of no tool either as
    it is spelt or lower-cased, and neither as it is spelt nor
    lower-cased is a name inherited from [Object.prototype]; let no tool
    be named [__proto__].  The action raises nothing and becomes one
    step.  In the step executor [_takeNextStep] its observation is
    "<tool> is not a valid tool, try another available tool: " followed
    by the names of all the tools joined by ", "; in [_call] it is
    "<tool> is not a valid tool, try another one.".  In both drivers
    the loop then goes on to its next cycle. *)
Theorem unknown_tool_becomes_observation ex a w :
  tool a <> "_Exception" ->
  obj_get (toLowerCase (tool a)) (toolsByName ex) = None ->
  obj_get (tool a) (toolsByName ex) = None ->
  inherited (tool a) = false ->
  inherited (toLowerCase (tool a)) = false ->
  (forall t, In t (tools ex) -> name t <> "__proto__") ->
  let listed := tool a +:+ " is not a valid tool, try another available tool: "
                +:+ join ", " (Object_keys (nameToToolMap ex)) in
  let plain := tool a +:+ " is not a valid tool, try another one." in
  takeAction ex (nameToToolMap ex) a w = (inr (mkStep a listed), w)
  /\ (forall n, In n (Object_keys (nameToToolMap ex)) <->
                exists t, In t (tools ex) /\ name t = n)
  /\ callAction ex (toolsByName ex) a w = (inr (mkStep a plain), w)
  /\ (forall ins steps w0,
        plan (agent ex) steps ins w0 = (inr (OneAction a), w) ->
        callCycle ex (toolsByName ex) ins steps w0 =
        (inr (Continue (steps ++ [mkStep a plain])), w))
  /\ (forall J ins steps i w0,
        plan (agent ex) steps ins w0 = (inr (OneAction a), w) ->
        shouldContinue ex i = true ->
        streamIterator_next J SuspendedYield (mkIterator ex ins None steps i, w0) =
        (inr (Yielded {[ "intermediateSteps" := VSteps [mkStep a listed] ]}),
         SuspendedYield,
         (mkIterator ex ins None (steps ++ [mkStep a listed]) (i + 1), w))).
Proof.
  intros Hx Hu Hl _ _ _ listed plain.
  pose proof (unknown_as_spelt _ _ Hu) as Hn.
  split; [now apply takeAction_unknown|].
  split; [apply nameToToolMap_keys|].
  split; [now apply callAction_unknown|].
  split.
  - intros ins steps w0 Hp. unfold callCycle. unmonad. rewrite Hp. unmonad.
    rewrite callAction_unknown by assumption. unmonad.
    rewrite last_snoc. simpl. now rewrite Hu.
  - intros J ins steps i w0 Hp Hc.
    unfold streamIterator_next, streamIterator_body, _callNext, _executeNextStep,
      _takeNextStep, _processNextStepOutput, setFinalOutputs, _getToolReturn.
    unmonad. rewrite Hc. unmonad. rewrite Hp. unmonad.
    rewrite takeAction_unknown by assumption. unmonad.
    now rewrite Hl.
Qed.


(** *** Cycles that neither finish nor fail *)

Lemma mapM_steps (f : AgentAction -> M W AgentStep) (l : list AgentAction) w :
  (forall a w0, In a l -> exists obs w1, f a w0 = (inr (mkStep a obs), w1)) ->
  exists res w', mapM f l w = (inr res, w') /\ map action res = l.
Proof.
  revert w. induction l as [|a l IH]; intros w H; simpl.
  - exists [], w. auto.
  - destruct (H a w (or_introl eq_refl)) as [obs [w1 Ha]].
    destruct (IH w1) as [res [w' [Hres Hmap]]].
    { intros a0 w0 Hin. apply H. now right. }
    exists (mkStep a obs :: res), w'. unmonad. rewrite Ha, Hres. simpl.
    now rewrite Hmap.
Qed.

Lemma callAction_settles ex a w :
  inputs_accepted ex ->
  exists obs w', callAction ex (toolsByName ex) a w = (inr (mkStep a obs), w').
Proof.
  intros Hacc. unfold callAction.
  destruct (String.eqb (tool a) "_Exception").
  - unmonad. eauto.
  - destruct (obj_get (toLowerCase (tool a)) (toolsByName ex)) as [t|] eqn:E.
    + apply toolsByName_get in E. destruct E as [Hin _].
      unmonad. destruct (call t (toolInput a) w) as [[e|s0] w'] eqn:C; [|eauto].
      destruct e; eauto.
      unfold toolInputObservation.
      destruct (handleParsingErrors ex) as [[|]| |] eqn:P; eauto.
      exfalso. eapply (Hacc P); eauto.
    + eauto.
Qed.

Lemma last_map_action (res : list AgentStep) (steps : list AgentStep) :
  res <> [] ->
  exists s, last (steps ++ res) = Some s /\ In (action s) (map action res).
Proof.
  intros Hne. destruct (exists_last Hne) as [res' [s ->]].
  exists s. rewrite app_assoc, last_snoc. split; [reflexivity|].
  rewrite map_app, in_app_iff. right. now left.
Qed.

Section NeverFinishing.

Variable ex : @AgentExecutor W.
Variable ins : ChainValues.

(** Every planning step ([plan], with its parsing errors recovered as
    [handleParsingErrors] says) gives at least one action. *)
Hypothesis plans_on :
  forall steps w, exists out w',
    planOrRecover ex steps ins w = (inr out, w') /\ actionsOf out <> [].

(** No action of a planning step resolves to a return-direct tool. *)
Hypothesis nothing_direct :
  forall steps w out w' a t,
    planOrRecover ex steps ins w = (inr out, w') ->
    In a (actionsOf out) ->
    obj_get (toLowerCase (tool a)) (toolsByName ex) = Some t ->
    returnDirect t = false.

Hypothesis accepted : inputs_accepted ex.

Lemma callCycle_continues steps w :
  exists steps' w',
    callCycle ex (toolsByName ex) ins steps w = (inr (Continue steps'), w')
    /\ (length steps < length steps')%nat.
Proof.
  destruct (plans_on steps w) as [out [w1 [Hp Hne]]].
  destruct (mapM_steps (callAction ex (toolsByName ex)) (actionsOf out) w1)
    as [res [w2 [Hres Hmap]]].
  { intros a w0 _. now apply callAction_settles. }
  assert (Hres_ne : res <> []).
  { intros ->. simpl in Hmap. congruence. }
  destruct (last_map_action res steps Hres_ne) as [s [Hlast Hin]].
  rewrite Hmap in Hin.
  exists (steps ++ res), w2. split.
  - unfold callCycle. unfold bind at 1. rewrite Hp.
    assert (Hd : match obj_get (toLowerCase (tool (action s))) (toolsByName ex) with
                 | Some t => returnDirect t = false
                 | None => True
                 end).
    { destruct (obj_get (toLowerCase (tool (action s))) (toolsByName ex)) as [t|] eqn:E;
        [|exact I].
      exact (nothing_direct _ _ _ _ _ _ Hp Hin E). }
    destruct out as [f|a|l]; [simpl in Hne; congruence| |];
      (unfold bind at 1; simpl actionsOf in *; rewrite Hres; cbv zeta; rewrite Hlast;
       destruct (obj_get (toLowerCase (tool (action s))) (toolsByName ex)) as [t|];
       [now rewrite Hd|reflexivity]).
  - rewrite length_app. destruct res; [congruence|simpl; lia].
Qed.

(** From [i] completed cycles the loop makes the cycles that are left
    and leaves through the code after the loop. *)
Lemma callLoop_exhausts (n : nat) :
  forall (N : Z) fuel steps (i : Z) w,
    maxIterations ex = Some N ->
    0 <= i -> i + Z.of_nat n = N -> (n < fuel)%nat ->
    exists steps' w',
      callLoop fuel ex (toolsByName ex) ins steps i w =
      Some (mkRunEnd N steps' (fst (afterLoop ex ins steps' w'))
              (snd (afterLoop ex ins steps' w')))
      /\ (length steps + n <= length steps')%nat.
Proof.
  induction n as [|n IH]; intros N fuel steps i w HN Hi Hsum Hfuel.
  - destruct fuel as [|fuel]; [lia|]. simpl.
    replace (shouldContinue ex i) with false.
    2:{ symmetry. unfold shouldContinue. rewrite HN. apply Z.ltb_ge. lia. }
    exists steps, w. replace i with N by lia.
    destruct (afterLoop ex ins steps w). split; [reflexivity|lia].
  - destruct fuel as [|fuel]; [lia|]. simpl.
    replace (shouldContinue ex i) with true.
    2:{ symmetry. unfold shouldContinue. rewrite HN. apply Z.ltb_lt. lia. }
    destruct (callCycle_continues steps w) as [steps1 [w1 [Hc Hlen]]].
    rewrite Hc.
    destruct (IH N fuel steps1 (i + 1) w1) as [steps' [w' [Hl Hlen']]]; try lia; auto.
    exists steps', w'. split; [assumption|lia].
Qed.

End NeverFinishing.

Lemma forced_finish_output ex ins steps w :
  earlyStoppingMethod ex = "force" ->
  (forall st w0, returnStoppedResponse (agent ex) "force" st ins w0 =
                 (_returnStoppedResponse "force", w0)) ->
  (forall rv st w0, exists extra w1,
      prepareForOutput (agent ex) rv st w0 = (inr extra, w1) /\
      extra !! "output" = None) ->
  exists out,
    fst (afterLoop ex ins steps w) = inr out /\
    out !! "output" =
    Some (VString "Agent stopped due to iteration limit or time limit.").
Proof.
  intros Hm Hs Hp. unfold afterLoop, getOutput. unmonad. rewrite Hm, Hs. simpl.
  match goal with
  | |- context [prepareForOutput ?a ?rv ?st ?w0] =>
      destruct (Hp rv st w0) as [extra [w1 [Hx Hnone]]]
  end.
  rewrite Hx.
  destruct (returnIntermediateSteps ex); simpl; eexists; (split; [reflexivity|]).
  - rewrite lookup_union_r by assumption.
    rewrite lookup_insert_ne by discriminate. apply lookup_singleton_eq.
  - rewrite lookup_union_r by assumption. apply lookup_singleton_eq.
Qed.



(** *** What [_call] does with failures, recoveries and return-direct tools *)

(** A failure of a tool that is not an input-parsing error is caught
    and dropped by both drivers: the step gets the empty observation. *)
Lemma callAction_swallows ex (byName : JsObject (@Tool W)) a t e w w' :
  tool a <> "_Exception" ->
  obj_get (toLowerCase (tool a)) byName = Some t ->
  call t (toolInput a) w = (inl e, w') ->
  (forall m o, e <> ToolInputParsingException m o) ->
  callAction ex byName a w = (inr (mkStep a ""), w').
Proof.
  intros Hx Hg Hc He. apply String.eqb_neq in Hx.
  unfold callAction. rewrite Hx, Hg. unmonad. rewrite Hc.
  destruct e; try reflexivity. now destruct (He message output).
Qed.

Lemma takeAction_swallows ex (m : JsObject (@Tool W)) a t e w w' :
  obj_get (tool a) m = Some t ->
  call t (toolInput a) w = (inl e, w') ->
  (forall msg o, e <> ToolInputParsingException msg o) ->
  takeAction ex m a w = (inr (mkStep a ""), w').
Proof.
  intros Hg Hc He. unfold takeAction. rewrite Hg. unmonad. rewrite Hc.
  destruct e; try reflexivity. now destruct (He message output).
Qed.

(** In [_call] a parsing error of [plan] under a fixed string becomes a
    step whose observation is that string. *)
Lemma callCycle_recovers_with_string ex (byName : JsObject (@Tool W)) ins steps w
    S msg l o b w' :
  handleParsingErrors ex = HString S ->
  plan (agent ex) steps ins w = (inl (OutputParserException msg l o b), w') ->
  obj_get (toLowerCase "_Exception") byName = None ->
  callCycle ex byName ins steps w =
  (inr (Continue (steps ++ [mkStep (mkAction "_Exception" (Some S) msg) S])), w').
Proof.
  intros Hh Hp Hn. unfold callCycle, planOrRecover. unmonad. rewrite Hp. simpl.
  rewrite Hh. unmonad. unfold callAction. simpl. unmonad.
  rewrite last_snoc. simpl. now rewrite Hn.
Qed.

(** In [_call] a return-direct tool that has answered ends the run on
    that cycle, with its observation under the first declared key. *)
Lemma callCycle_returns_direct ex (byName : JsObject (@Tool W)) ins steps w a t w1
    obs w2 :
  plan (agent ex) steps ins w = (inr (OneAction a), w1) ->
  tool a <> "_Exception" ->
  obj_get (toLowerCase (tool a)) byName = Some t ->
  returnDirect t = true ->
  call t (toolInput a) w1 = (inr obs, w2) ->
  callCycle ex byName ins steps w =
  match getOutput ex (steps ++ [mkStep a obs])
          (mkFinish {[ firstReturnKey (agent ex) := VString obs ]} "") w2 with
  | (inr out, w3) => (inr (Returned out), w3)
  | (inl e, w3) => (inl e, w3)
  end.
Proof.
  intros Hp Hx Hg Hd Hc. apply String.eqb_neq in Hx.
  unfold callCycle, planOrRecover. unmonad. rewrite Hp. unmonad.
  unfold callAction. rewrite Hx, Hg. unmonad. rewrite Hc. unmonad.
  rewrite last_snoc. simpl. rewrite Hg, Hd.
  now destruct (getOutput _ _ _ _) as [[e|out] w3].
Qed.


(** *** The two drivers side by side *)

Lemma mapM_ext {A B} (f g : A -> M W B) (l : list A) w :
  (forall x w0, In x l -> f x w0 = g x w0) -> mapM f l w = mapM g l w.
Proof.
  revert w. induction l as [|x l IH]; intros w H; simpl; [reflexivity|].
  unfold bind. rewrite (H x w (or_introl eq_refl)).
  destruct (g x w) as [[e|b] w1]; [reflexivity|].
  rewrite IH; [reflexivity|]. intros x0 w0 Hin. apply H. now right.
Qed.

Lemma takeAction_action ex (m : JsObject (@Tool W)) a w s w' :
  takeAction ex m a w = (inr s, w') -> action s = a.
Proof.
  unfold takeAction. unmonad.
  match goal with
  | |- context [match ?X with (_, _) => _ end] => destruct X as [[e|o] w1]
  end; [discriminate|].
  now intros [= <- _].
Qed.

Lemma mapM_takeAction_actions ex (m : JsObject (@Tool W)) l w res w' :
  mapM (takeAction ex m) l w = (inr res, w') -> map action res = l.
Proof.
  revert w res. induction l as [|a l IH]; intros w res; simpl.
  - unmonad. now intros [= <- _].
  - unfold bind at 1.
    destruct (takeAction ex m a w) as [[e|s] w1] eqn:Ha; [discriminate|].
    unfold bind at 1.
    destruct (mapM (takeAction ex m) l w1) as [[e|bs] w2] eqn:Hl; [discriminate|].
    unmonad. intros [= ? ?]. subst. simpl.
    now rewrite (takeAction_action _ _ _ _ _ _ Ha), (IH _ _ Hl).
Qed.


(** With an iteration bound the loop of [_call] settles. *)
Lemma callLoop_settles ex (byName : JsObject (@Tool W)) ins (N : Z) :
  maxIterations ex = Some N ->
  forall (n : nat) fuel steps (i : Z) w,
    N - i <= Z.of_nat n -> (n < fuel)%nat ->
    exists r, callLoop fuel ex byName ins steps i w = Some r.
Proof.
  intros HN. induction n as [|n IH]; intros fuel steps i w Hi Hfuel;
    (destruct fuel as [|fuel]; [lia|]); cbn [callLoop].
  - replace (shouldContinue ex i) with false.
    2:{ symmetry. unfold shouldContinue. rewrite HN. apply Z.ltb_ge. lia. }
    destruct (afterLoop ex ins steps w). eauto.
  - destruct (shouldContinue ex i).
    + destruct (callCycle ex byName ins steps w) as [[e|[out|steps']] w']; eauto.
      apply IH; lia.
    + destruct (afterLoop ex ins steps w). eauto.
Qed.

Section Agreement.

Variable J : ChainValues -> string.
Variable ex : @AgentExecutor W.
Variable ins : ChainValues.

(** Tools whose names agree up to letter case have the same name. *)
Hypothesis distinct_names :
  forall t1 t2, In t1 (tools ex) -> In t2 (tools ex) ->
    toLowerCase (name t1) = toLowerCase (name t2) -> name t1 = name t2.

(** The return-direct tools have lower-case names. *)
Hypothesis direct_lower :
  forall t, In t (tools ex) -> returnDirect t = true -> toLowerCase (name t) = name t.

(** No tool bears the reserved name. *)
Hypothesis none_reserved :
  forall t, In t (tools ex) -> name t <> "_Exception".

(** Every planned action names a tool of the table, as it is spelt. *)
Hypothesis registered :
  forall steps w out w' a,
    plan (agent ex) steps ins w = (inr out, w') ->
    In a (actionsOf out) ->
    obj_get (tool a) (nameToToolMap ex) <> None.

(** A list of actions holds one action. *)
Hypothesis one_action :
  forall steps w l w',
    plan (agent ex) steps ins w = (inr (ManyActions l), w') -> exists a, l = [a].

(** A parsing error of [plan] is rethrown, not recovered. *)
Hypothesis no_recovery :
  forall steps w msg l o b w',
    plan (agent ex) steps ins w = (inl (OutputParserException msg l o b), w') ->
    handleParsingErrors ex = HBool false.

(** [prepareForOutput] adds nothing, [prepOutputs] hands the outputs
    back, and the decision-maker declares an output key. *)
Hypothesis prepare_nothing :
  forall rv st w, prepareForOutput (agent ex) rv st w = (inr ∅, w).
Hypothesis outputs_plain :
  forall out w, prepOutputs ex ins out true w = (inr out, w).
Hypothesis declared_key : agentReturnValues (agent ex) <> [].

Lemma planOrRecover_plan steps w :
  planOrRecover ex steps ins w = plan (agent ex) steps ins w.
Proof.
  unfold planOrRecover, try_catch.
  destruct (plan (agent ex) steps ins w) as [[e|out] w1] eqn:Hp; [|reflexivity].
  destruct e; try reflexivity.
  simpl. now rewrite (no_recovery _ _ _ _ _ _ _ Hp).
Qed.

(** The table of [_call] under the lower-cased name holds what the
    table of the iterator holds under the name of a tool. *)
Lemma lookup_lower_exact a t :
  obj_get (tool a) (nameToToolMap ex) = Some t ->
  obj_get (toLowerCase (tool a)) (toolsByName ex) = Some t.
Proof.
  intros E. rewrite <- E. unfold toolsByName, nameToToolMap.
  destruct (nameToToolMap_get _ _ _ E) as [Hin Hn].
  apply (fromEntries_rekeyed (fun t => toLowerCase (name t)) name).
  intros y Hy. split.
  - intros H. rewrite Hn in *. now apply distinct_names.
  - now intros ->.
Qed.

(** A tool called by its name is found, and served, the same way by
    both drivers. *)
Lemma callAction_takeAction a w :
  obj_get (tool a) (nameToToolMap ex) <> None ->
  callAction ex (toolsByName ex) a w = takeAction ex (nameToToolMap ex) a w.
Proof.
  intros Hreg.
  destruct (obj_get (tool a) (nameToToolMap ex)) as [t|] eqn:E; [|congruence].
  destruct (nameToToolMap_get _ _ _ E) as [Hin Hn].
  assert (Hx : tool a <> "_Exception") by (rewrite Hn; now apply none_reserved).
  apply String.eqb_neq in Hx.
  unfold callAction, takeAction. rewrite Hx, (lookup_lower_exact _ _ E), E. unmonad.
  destruct (call t (toolInput a) w) as [[e|o] w1]; [|reflexivity].
  destruct e; try reflexivity.
  now destruct (toolInputObservation ex _).
Qed.

Lemma planned_actions_agree steps w out w1 :
  plan (agent ex) steps ins w = (inr out, w1) ->
  mapM (callAction ex (toolsByName ex)) (actionsOf out) w1 =
  mapM (takeAction ex (nameToToolMap ex)) (actionsOf out) w1.
Proof.
  intros Hp. apply mapM_ext. intros a w0 Hin.
  apply callAction_takeAction. eapply registered; eauto.
Qed.

Lemma getOutput_return steps f w :
  getOutput ex steps f w = (inr (_return ex f steps), w).
Proof.
  unfold getOutput, _return. unmonad. rewrite prepare_nothing.
  destruct (returnIntermediateSteps ex); now rewrite (left_id_L ∅ (∪)).
Qed.

Lemma setFinalOutputs_some out fo steps i w :
  setFinalOutputs (Some out) (mkIterator ex ins fo steps i, w) =
  (inr tt, (mkIterator ex ins (Some out) steps i, w)).
Proof. unfold setFinalOutputs. unmonad. now rewrite outputs_plain. Qed.

(** What the return-direct check of the iterator finds under the name
    of a tool, as it is spelt, is return-direct exactly when the tool
    of that name is. *)
Lemma direct_lookup_agrees a t :
  obj_get (tool a) (nameToToolMap ex) = Some t ->
  match obj_get (tool a) (toolsByName ex) with
  | Some t' => returnDirect t' = returnDirect t
  | None => returnDirect t = false
  end.
Proof.
  intros E. pose proof (lookup_lower_exact _ _ E) as El.
  destruct (nameToToolMap_get _ _ _ E) as [Hin Hn].
  destruct (returnDirect t) eqn:Hd.
  - pose proof (direct_lower _ Hin Hd) as Hl.
    assert (Hs : toLowerCase (tool a) = tool a) by congruence.
    rewrite Hs in El. now rewrite El.
  - destruct (obj_get (tool a) (toolsByName ex)) as [t'|] eqn:E'; [|reflexivity].
    destruct (returnDirect t') eqn:Hd'; [|reflexivity].
    destruct (toolsByName_get _ _ _ E') as [Hin' Hn'].
    pose proof (direct_lower _ Hin' Hd') as Hl.
    assert (Hs : toLowerCase (tool a) = tool a) by congruence.
    rewrite Hs in El. congruence.
Qed.

(** The return-direct check of [_call] and the one of the iterator. *)
Lemma getToolReturn_planned steps w out w1 s :
  plan (agent ex) steps ins w = (inr out, w1) ->
  In (action s) (actionsOf out) ->
  _getToolReturn ex s =
  match obj_get (toLowerCase (tool (action s))) (toolsByName ex) with
  | Some t =>
      if returnDirect t
      then Some (mkFinish {[ firstReturnKey (agent ex) := VString (observation s) ]} "")
      else None
  | None => None
  end.
Proof.
  intros Hp Hin. pose proof (registered _ _ _ _ _ Hp Hin) as Hreg.
  destruct (obj_get (tool (action s)) (nameToToolMap ex)) as [t|] eqn:E; [|congruence].
  pose proof (direct_lookup_agrees _ _ E) as Hd.
  rewrite (lookup_lower_exact _ _ E).
  unfold _getToolReturn, firstReturnKey.
  destruct (agentReturnValues (agent ex)) as [|k ks]; [congruence|].
  destruct (obj_get (tool (action s)) (toolsByName ex)) as [t'|]; now rewrite Hd.
Qed.

(** One pull of a suspended generator. *)
Lemma pull_when_finished out steps i w :
  streamIterator_next J SuspendedYield (mkIterator ex ins (Some out) steps i, w) =
  (inr (Done (Some out)), Completed, (mkIterator ex ins (Some out) steps i, w)).
Proof.
  unfold streamIterator_next, streamIterator_body, _callNext. unmonad.
  now rewrite startsWith_app.
Qed.

Lemma pull_error (st : @AgentExecutorIterator W * W) e it' w' :
  _callNext J st = (inl e, (it', w')) ->
  _finalOutputs it' = None ->
  streamIterator_next J SuspendedYield st = (inl e, Completed, (it', w')).
Proof.
  intros Hc Hf. unfold streamIterator_next, streamIterator_body, try_catch, bind.
  rewrite Hc. destruct (startsWith (message_of e) _); unmonad; now rewrite ?Hf.
Qed.

Lemma pull_yield (st st' : @AgentExecutorIterator W * W) v :
  _callNext J st = (inr v, st') ->
  streamIterator_next J SuspendedYield st = (inr (Yielded v), SuspendedYield, st').
Proof.
  intros Hc. unfold streamIterator_next, streamIterator_body, try_catch, bind.
  now rewrite Hc.
Qed.

Lemma callNext_cycle steps i w :
  shouldContinue ex i = true ->
  _callNext J (mkIterator ex ins None steps i, w) =
  match _takeNextStep ex (nameToToolMap ex) ins steps w with
  | (inl e, w1) => (inl e, (mkIterator ex ins None steps i, w1))
  | (inr nso, w1) =>
      match _processNextStepOutput nso (mkIterator ex ins None steps i, w1) with
      | (inl e, st) => (inl e, st)
      | (inr out, st) => (inr out, (updateIterations (fst st), snd st))
      end
  end.
Proof.
  intros Hc. unfold _callNext, _executeNextStep. unmonad. rewrite Hc. simpl.
  destruct (_takeNextStep ex (nameToToolMap ex) ins steps w) as [[e|nso] w1];
    [reflexivity|].
  now destruct (_processNextStepOutput nso _) as [[e|out] st].
Qed.

Lemma process_finish f steps i w :
  _processNextStepOutput (inl f) (mkIterator ex ins None steps i, w) =
  (inr (_return ex f steps),
   (mkIterator ex ins (Some (_return ex f steps)) steps i, w)).
Proof.
  unfold _processNextStepOutput. unfold bind at 1. unfold this at 1. simpl.
  unfold bind. now rewrite setFinalOutputs_some.
Qed.

Lemma process_direct s fin steps i w :
  _getToolReturn ex s = Some fin ->
  _processNextStepOutput (inr [s]) (mkIterator ex ins None steps i, w) =
  (inr {[ "intermediateSteps" := VSteps [s] ]},
   (mkIterator ex ins (Some (_return ex fin (steps ++ [s]))) (steps ++ [s]) i, w)).
Proof.
  intros Hg. unfold _processNextStepOutput. unfold bind at 1. unfold update at 1. simpl.
  unfold bind at 1. unfold bind at 1. unfold this at 1. simpl. rewrite Hg.
  unfold set_intermediateSteps. simpl. now rewrite setFinalOutputs_some.
Qed.

Lemma process_plain res steps i w :
  (forall s, res = [s] -> _getToolReturn ex s = None) ->
  _processNextStepOutput (inr res) (mkIterator ex ins None steps i, w) =
  (inr {[ "intermediateSteps" := VSteps res ]},
   (mkIterator ex ins None (steps ++ res) i, w)).
Proof.
  intros Hg. unfold _processNextStepOutput. unfold bind at 1. unfold update at 1. simpl.
  destruct res as [|s [|s' res]]; try reflexivity.
  unfold bind at 1. unfold bind at 1. unfold this at 1. simpl.
  now rewrite (Hg s eq_refl).
Qed.


Lemma planned_one steps w out w1 :
  plan (agent ex) steps ins w = (inr out, w1) ->
  (forall f, out <> Finish f) -> exists a, actionsOf out = [a].
Proof.
  intros Hp Hf. destruct out as [f|a|l]; simpl.
  - now destruct (Hf f).
  - eauto.
  - eapply one_action; eauto.
Qed.

(** A cycle that acts: the tail of the loop body of [_call] against
    [_processNextStepOutput]. *)
Lemma acting_cycle steps i w out w1 res w2 :
  plan (agent ex) steps ins w = (inr out, w1) ->
  (forall f, out <> Finish f) ->
  mapM (takeAction ex (nameToToolMap ex)) (actionsOf out) w1 = (inr res, w2) ->
  exists s, last (steps ++ res) = Some s /\
    match obj_get (toLowerCase (tool (action s))) (toolsByName ex) with
    | Some t =>
        if returnDirect t
        then exists fin,
            fin = mkFinish {[ firstReturnKey (agent ex) := VString (observation s) ]} ""
            /\ _processNextStepOutput (inr res) (mkIterator ex ins None steps i, w2) =
               (inr {[ "intermediateSteps" := VSteps res ]},
                (mkIterator ex ins (Some (_return ex fin (steps ++ res)))
                   (steps ++ res) i, w2))
        else _processNextStepOutput (inr res) (mkIterator ex ins None steps i, w2) =
             (inr {[ "intermediateSteps" := VSteps res ]},
              (mkIterator ex ins None (steps ++ res) i, w2))
    | None =>
        _processNextStepOutput (inr res) (mkIterator ex ins None steps i, w2) =
        (inr {[ "intermediateSteps" := VSteps res ]},
         (mkIterator ex ins None (steps ++ res) i, w2))
    end.
Proof.
  intros Hp Hf Hm.
  pose proof (mapM_takeAction_actions _ _ _ _ _ _ Hm) as Hmap.
  destruct (planned_one _ _ _ _ Hp Hf) as [a Ha].
  rewrite Ha in Hmap. destruct res as [|s [|s' res]]; try discriminate.
  injection Hmap as Hs.
  assert (Hin : In (action s) (actionsOf out)) by (rewrite Ha, Hs; now left).
  exists s. split; [apply last_snoc|].
  pose proof (getToolReturn_planned _ _ _ _ s Hp Hin) as Hg.
  destruct (obj_get (toLowerCase (tool (action s))) (toolsByName ex)) as [t|].
  - destruct (returnDirect t).
    + eexists. split; [reflexivity|]. now apply process_direct.
    + apply process_plain. now intros s0 [= <-].
  - apply process_plain. now intros s0 [= <-].
Qed.

Lemma callCycle_acting steps w out w1 :
  plan (agent ex) steps ins w = (inr out, w1) ->
  (forall f, out <> Finish f) ->
  callCycle ex (toolsByName ex) ins steps w =
  match mapM (takeAction ex (nameToToolMap ex)) (actionsOf out) w1 with
  | (inl e, w2) => (inl e, w2)
  | (inr res, w2) =>
      match last (steps ++ res) with
      | Some s =>
          match obj_get (toLowerCase (tool (action s))) (toolsByName ex) with
          | Some t =>
              if returnDirect t
              then (inr (Returned
                           (_return ex
                              (mkFinish {[ firstReturnKey (agent ex) :=
                                             VString (observation s) ]} "")
                              (steps ++ res))), w2)
              else (inr (Continue (steps ++ res)), w2)
          | None => (inr (Continue (steps ++ res)), w2)
          end
      | None =>
          (inl (TypeError "Cannot read properties of undefined (reading 'action')"), w2)
      end
  end.
Proof.
  intros Hp Hf. unfold callCycle. unfold bind at 1. rewrite planOrRecover_plan, Hp.
  rewrite <- (planned_actions_agree _ _ _ _ Hp).
  destruct out as [f|a|l]; [now destruct (Hf f)| |];
    (unfold bind at 1;
     match goal with
     | |- context [mapM ?f ?l ?w] => destruct (mapM f l w) as [[e|res] w2]
     end; [reflexivity|];
     destruct (last (steps ++ res)) as [s|]; [|reflexivity];
     destruct (obj_get (toLowerCase (tool (action s))) (toolsByName ex)) as [t|];
       [|reflexivity];
     destruct (returnDirect t); [|reflexivity];
     unfold bind; now rewrite getOutput_return).
Qed.

Lemma takeNextStep_acting steps w out w1 :
  plan (agent ex) steps ins w = (inr out, w1) ->
  (forall f, out <> Finish f) ->
  _takeNextStep ex (nameToToolMap ex) ins steps w =
  match mapM (takeAction ex (nameToToolMap ex)) (actionsOf out) w1 with
  | (inl e, w2) => (inl e, w2)
  | (inr res, w2) => (inr (inr res), w2)
  end.
Proof.
  intros Hp Hf. unfold _takeNextStep. unfold bind at 1. rewrite planOrRecover_plan, Hp.
  destruct out as [f|a|l]; [now destruct (Hf f)| |];
    (unfold bind;
     match goal with
     | |- context [mapM ?f ?l ?w] => now destruct (mapM f l w) as [[e|res] w2]
     end).
Qed.

(** A pull against a pass through the loop of [_call], while the
    iteration bound allows a cycle. *)
Lemma pull_cycle steps i w :
  shouldContinue ex i = true ->
  match callCycle ex (toolsByName ex) ins steps w with
  | (inl e, w') =>
      streamIterator_next J SuspendedYield (mkIterator ex ins None steps i, w) =
      (inl e, Completed, (mkIterator ex ins None steps i, w'))
  | (inr (Returned out), w') =>
      exists v st,
        streamIterator_next J SuspendedYield (mkIterator ex ins None steps i, w) =
        (inr (Yielded v), SuspendedYield, (mkIterator ex ins (Some out) st (i + 1), w'))
  | (inr (Continue steps'), w') =>
      exists v,
        streamIterator_next J SuspendedYield (mkIterator ex ins None steps i, w) =
        (inr (Yielded v), SuspendedYield, (mkIterator ex ins None steps' (i + 1), w'))
  end.
Proof.
  intros Hc. pose proof (callNext_cycle steps i w Hc) as Hn.
  destruct (plan (agent ex) steps ins w) as [[e|out] w1] eqn:Hp.
  - unfold callCycle, _takeNextStep in *. unfold bind at 1. unfold bind at 1 in Hn.
    rewrite planOrRecover_plan, Hp in *. now apply pull_error.
  - assert (Hcase : (exists f, out = Finish f) \/ (forall f, out <> Finish f)).
    { destruct out; [left; eauto|right; discriminate|right; discriminate]. }
    destruct Hcase as [[f ->]|Hf].
    + unfold callCycle, _takeNextStep in *. unfold bind at 1. unfold bind at 1 in Hn.
      rewrite planOrRecover_plan, Hp in *.
      unfold bind. rewrite getOutput_return. simpl. simpl in Hn.
      rewrite process_finish in Hn. simpl in Hn.
      eexists. eexists. apply pull_yield. exact Hn.
    + rewrite (callCycle_acting _ _ _ _ Hp Hf).
      rewrite (takeNextStep_acting _ _ _ _ Hp Hf) in Hn.
      destruct (mapM (takeAction ex (nameToToolMap ex)) (actionsOf out) w1)
        as [[e|res] w2] eqn:Hm.
      * now apply pull_error.
      * destruct (acting_cycle steps i w out w1 res w2 Hp Hf Hm) as [s [Hlast Hs]].
        rewrite Hlast.
        destruct (obj_get (toLowerCase (tool (action s))) (toolsByName ex)) as [t|].
        -- destruct (returnDirect t).
           ++ destruct Hs as [fin [-> Hs]]. rewrite Hs in Hn. simpl in Hn.
              eexists. eexists. apply pull_yield. exact Hn.
           ++ rewrite Hs in Hn. simpl in Hn.
              eexists. apply pull_yield. exact Hn.
        -- rewrite Hs in Hn. simpl in Hn.
           eexists. apply pull_yield. exact Hn.
Qed.

(** A pull against the code after the loop, once the bound is reached. *)
Lemma pull_stop steps i w :
  shouldContinue ex i = false ->
  match afterLoop ex ins steps w with
  | (inl e, w') =>
      streamIterator_next J SuspendedYield (mkIterator ex ins None steps i, w) =
      (inl e, Completed, (mkIterator ex ins None steps i, w'))
  | (inr out, w') =>
      exists v,
        streamIterator_next J SuspendedYield (mkIterator ex ins None steps i, w) =
        (inr (Yielded v), SuspendedYield, (mkIterator ex ins (Some out) steps i, w'))
  end.
Proof.
  intros Hc. unfold afterLoop. unfold bind at 1.
  assert (Hn : _callNext J (mkIterator ex ins None steps i, w) =
               _stop (mkIterator ex ins None steps i, w)).
  { unfold _callNext. unmonad. now rewrite Hc. }
  unfold _stop in Hn. unfold bind at 1 in Hn. unfold this at 1 in Hn. simpl in Hn.
  unfold bind at 1 in Hn. unfold await at 1 in Hn. simpl in Hn.
  destruct (returnStoppedResponse (agent ex) (earlyStoppingMethod ex) steps ins w)
    as [[e|f] w1].
  - now apply pull_error.
  - rewrite getOutput_return. unfold bind in Hn. rewrite setFinalOutputs_some in Hn.
    simpl in Hn. eexists. apply pull_yield. exact Hn.
Qed.


Lemma drain_S fuel g (st : @AgentExecutorIterator W * W) :
  drain J (S fuel) g st =
  match streamIterator_next J g st with
  | (inr (Yielded _), g', st') => drain J fuel g' st'
  | (inr (Done v), _, st') => Some (inr v, st')
  | (inl e, _, st') => Some (inl e, st')
  end.
Proof. reflexivity. Qed.

Lemma drain_more fuel : forall g (st : @AgentExecutorIterator W * W) x,
  drain J fuel g st = Some x -> drain J (S fuel) g st = Some x.
Proof.
  induction fuel as [|fuel IH]; intros g st x; [discriminate|].
  rewrite (drain_S (S fuel)), (drain_S fuel).
  destruct (streamIterator_next J g st) as [[[e|[v|v]] g'] st']; auto.
Qed.

(** The pulls of the generator follow the passes of the loop of
    [_call]: when the loop settles within [fuel] passes, one more pull
    hands out its result; while it has not, neither has the generator. *)
Lemma drain_follows fuel : forall steps i w,
  match callLoop fuel ex (toolsByName ex) ins steps i w with
  | Some r =>
      drained (drain J (S fuel) SuspendedYield (mkIterator ex ins None steps i, w)) =
      Some (asReturn (endResult r, endWorld r))
  | None => drain J fuel SuspendedYield (mkIterator ex ins None steps i, w) = None
  end.
Proof.
  induction fuel as [|fuel IH]; intros steps i w; [reflexivity|].
  cbn [callLoop]. rewrite (drain_S (S fuel)).
  destruct (shouldContinue ex i) eqn:Hc.
  - pose proof (pull_cycle steps i w Hc) as Hp.
    destruct (callCycle ex (toolsByName ex) ins steps w) as [[e|[out|steps']] w'].
    + now rewrite Hp.
    + destruct Hp as [v [st Hp]]. rewrite Hp, drain_S, pull_when_finished. reflexivity.
    + destruct Hp as [v Hp]. rewrite Hp.
      specialize (IH steps' (i + 1) w').
      destruct (callLoop fuel ex (toolsByName ex) ins steps' (i + 1) w') as [r|].
      * assumption.
      * rewrite drain_S, Hp. assumption.
  - pose proof (pull_stop steps i w Hc) as Hp.
    destruct (afterLoop ex ins steps w) as [[e|out] w'].
    + now rewrite Hp.
    + destruct Hp as [v Hp]. rewrite Hp, drain_S, pull_when_finished. reflexivity.
Qed.

Lemma streamIterator_from_reset fuel (it : @AgentExecutorIterator W) w :
  agentExecutor it = ex -> inputs it = ins ->
  streamIterator J fuel it w =
  drain J fuel SuspendedYield (mkIterator ex ins None [] 0, w).
Proof. intros <- <-. now destruct fuel. Qed.


End Agreement.

End Properties.

(** * Runs of the two drivers

    The drivers evaluated on the collaborators of [Scenario], whose
    strings are strings of ASCII characters. *)

Import Scenario.

Section Runs.

#[local] Existing Instance asciiStrings.

(** ** Tool failures *)

(** C1. The tool of [exBroken] fails with an error that is no
    input-parsing error.  Neither driver lets it reach the caller: the
    step is recorded with the empty observation, the loop goes on, and
    the run ends with the forced Finish of the iteration bound. *)
Theorem tool_failure_is_swallowed :
  call (brokenTool "lookup") (Some "q") tt = (inl (Error "connection refused"), tt)
  /\ _call 3 exBroken ∅ tt =
     Some (inr (<["intermediateSteps" := VSteps [mkStep (ask "lookup" "q") ""]]>
                  {[ "output" := stopMessage ]}), tt)
  /\ drained (streamIterator json 3 (AgentExecutorIterator_new exBroken ∅) tt) =
     Some (inr (Some (<["intermediateSteps" := VSteps [mkStep (ask "lookup" "q") ""]]>
                        {[ "output" := stopMessage ]})), tt).
Proof. repeat split; vm_compute; reflexivity. Qed.

(** ** Letter case *)

(** C4. With one tool named "Search": [_call] finds it under
    "SEARCH"; the step executor of the iterator finds it under
    "Search" only, and the return-direct check [_getToolReturn], whose
    table is keyed in lower case, does not find it under its own name. *)
Theorem lookup_case_differs_between_drivers :
  callAction exDirect (toolsByName exDirect) (ask "SEARCH" "q") tt =
    (inr (mkStep (ask "SEARCH" "q") "q"), tt)
  /\ takeAction exDirect (nameToToolMap exDirect) (ask "SEARCH" "q") tt =
     (inr (mkStep (ask "SEARCH" "q")
             "SEARCH is not a valid tool, try another available tool: Search"), tt)
  /\ takeAction exDirect (nameToToolMap exDirect) (ask "Search" "q") tt =
     (inr (mkStep (ask "Search" "q") "q"), tt)
  /\ _getToolReturn exDirect (mkStep (ask "Search" "q") "q") = None
  /\ _getToolReturn exDirect (mkStep (ask "search" "q") "q") =
     Some (mkFinish {[ "output" := VString "q" ]} "").
Proof. repeat split; vm_compute; reflexivity. Qed.

(** ** Return-direct tools *)

(** C6. The return-direct tool "Search" of [exDirect] answers "q" in the
    first cycle.  [_call] returns it at once; the iterator plans and
    calls the tool a second time and ends with the forced Finish of the
    iteration bound. *)
Theorem return_direct_missed_by_iterator :
  returnDirect (echoTool "Search" true) = true
  /\ _call 4 exDirect ∅ tt = Some (inr {[ "output" := VString "q" ]}, tt)
  /\ (exists it,
        streamIterator json 4 (AgentExecutorIterator_new exDirect ∅) tt =
        Some (inr (Some {[ "output" := stopMessage ]}), (it, tt))
        /\ iterations it = 2
        /\ intermediateSteps it =
           [mkStep (ask "Search" "q") "q"; mkStep (ask "Search" "q") "q"]).
Proof.
  split; [reflexivity|]. split; [vm_compute; reflexivity|].
  eexists. split; [vm_compute; reflexivity|]. split; reflexivity.
Qed.

(** ** Parsing errors under a fixed string *)

(** C7. With [handleParsingErrors = "use X"] and a [plan] that always
    raises the parsing error, the steps of [_call] carry the observation
    "use X"; the steps of the iterator carry the observation of an
    unknown tool, since its step executor does not know [_Exception].
    Both runs end at the iteration bound. *)
Theorem recovered_observation_lost_in_iterator :
  _call 3 exGarbled ∅ tt =
    Some (inr (<["intermediateSteps" :=
                  VSteps [mkStep (mkAction "_Exception" (Some "use X")
                                    "Could not parse LLM output") "use X";
                          mkStep (mkAction "_Exception" (Some "use X")
                                    "Could not parse LLM output") "use X"]]>
                 {[ "output" := stopMessage ]}), tt)
  /\ drained (streamIterator json 4 (AgentExecutorIterator_new exGarbled ∅) tt) =
     Some (inr (Some (<["intermediateSteps" :=
                  VSteps [mkStep (mkAction "_Exception" (Some "use X")
                                    "Could not parse LLM output")
                            "_Exception is not a valid tool, try another available tool: echo";
                          mkStep (mkAction "_Exception" (Some "use X")
                                    "Could not parse LLM output")
                            "_Exception is not a valid tool, try another available tool: echo"]]>
                 {[ "output" := stopMessage ]})), tt).
Proof. split; vm_compute; reflexivity. Qed.

(** ** Where the claims of the specification fail as they are worded *)


(** Against C3: in [_call] the observation for the unknown tool "search"
    is not the one that lists the valid names. *)
Lemma unknown_tool_message_of_call :
  obj_get (toLowerCase "search") (toolsByName exUnknown) = None
  /\ obj_get "search" (nameToToolMap exUnknown) = None
  /\ callAction exUnknown (toolsByName exUnknown) (ask "search" "q") tt =
     (inr (mkStep (ask "search" "q") "search is not a valid tool, try another one."), tt)
  /\ callAction exUnknown (toolsByName exUnknown) (ask "search" "q") tt <>
     (inr (mkStep (ask "search" "q")
             ("search" +:+ " is not a valid tool, try another available tool: "
              +:+ join ", " (Object_keys (nameToToolMap exUnknown)))), tt).
Proof.
  split; [reflexivity|]. split; [reflexivity|]. split; [reflexivity|].
  vm_compute. discriminate.
Qed.


(** Against C8: with 10 units of time elapsed and a budget of 5 the
    predicate of the specification says stop; [shouldContinue], which
    sees the iteration count only, says continue. *)
Lemma shouldContinue_ignores_elapsed_time :
  spec_shouldContinue (maxIterations exEcho) (Some 5) 0 10 = false
  /\ shouldContinue exEcho 0 = true.
Proof. split; reflexivity. Qed.

(** ** The theorems at concrete runs *)


Lemma unknown_tool_on_exUnknown :
  takeAction exUnknown (nameToToolMap exUnknown) (ask "search" "q") tt =
    (inr (mkStep (ask "search" "q")
            "search is not a valid tool, try another available tool: echo"), tt)
  /\ callAction exUnknown (toolsByName exUnknown) (ask "search" "q") tt =
     (inr (mkStep (ask "search" "q") "search is not a valid tool, try another one."), tt).
Proof.
  destruct (unknown_tool_becomes_observation exUnknown (ask "search" "q") tt)
    as (H1 & _ & H3 & _).
  - discriminate.
  - reflexivity.
  - reflexivity.
  - reflexivity.
  - reflexivity.
  - intros t [<-|[]]. discriminate.
  - split; [exact H1|exact H3].
Defined.


Lemma constructor_rejects_inFanOut :
  exists t0, In t0 (inTools inFanOut) /\ returnDirect t0 = true /\
    AgentExecutor_new inFanOut =
    inl (Error ("Tool with return direct " +:+ name t0 +:+
                " not supported for multi-action agent.")).
Proof.
  apply (multi_action_rejects_return_direct inFanOut (echoTool "final" true)).
  - reflexivity.
  - right. left. reflexivity.
  - reflexivity.
Defined.

End Runs.

(** * Further properties of the code *)

(** ** Tables: order, uniqueness and the last write *)

Section MoreTables.

Context {A : Type}.
Implicit Types (o : JsObject A) (k : string) (v : A).

Lemma obj_set_fresh o k v : ~ In k (map fst o) -> obj_set k v o = o ++ [(k, v)].
Proof.
  induction o as [|[k0 v0] o IH]; simpl; intros H; [reflexivity|].
  destruct (String.eqb k k0) eqn:E.
  - apply String.eqb_eq in E. subst. exfalso. auto.
  - rewrite IH; auto.
Qed.

Lemma obj_set_In o k v k' v' :
  In (k', v') (obj_set k v o) -> (k', v') = (k, v) \/ In (k', v') o.
Proof.
  induction o as [|[k0 v0] o IH]; simpl.
  - intros [H|[]]. now left.
  - destruct (String.eqb k k0); simpl; intuition.
Qed.

Lemma obj_set_NoDup o k v : NoDup (map fst o) -> NoDup (map fst (obj_set k v o)).
Proof.
  induction o as [|[k0 v0] o IH]; simpl; intros H.
  - apply NoDup_singleton.
  - apply NoDup_cons in H. destruct H as [Hn Hd].
    destruct (String.eqb k k0) eqn:E; simpl.
    + apply String.eqb_eq in E. subst. now apply NoDup_cons.
    + apply String.eqb_neq in E. apply NoDup_cons. split; [|auto].
      rewrite list_elem_of_In, obj_set_keys. intros [->|H']; [congruence|].
      apply Hn. now apply list_elem_of_In.
Qed.

Lemma fold_set_NoDup (es : list (string * A)) o :
  NoDup (map fst o) ->
  NoDup (map fst (fold_left (fun o e => obj_set (fst e) (snd e) o) es o)).
Proof.
  revert o. induction es as [|e es IH]; intros o H; simpl; [assumption|].
  apply IH. now apply obj_set_NoDup.
Qed.

(** A table built from entries has every key once. *)
Lemma fromEntries_NoDup (es : list (string * A)) :
  NoDup (map fst (Object_fromEntries es)).
Proof. apply fold_set_NoDup. apply NoDup_nil_2. Qed.

Lemma fold_set_fresh (es : list (string * A)) o :
  NoDup (map fst (o ++ es)) ->
  fold_left (fun o e => obj_set (fst e) (snd e) o) es o = o ++ es.
Proof.
  revert o. induction es as [|[k0 v0] es IH]; intros o H; simpl.
  - now rewrite app_nil_r.
  - assert (Hn : ~ In k0 (map fst o)).
    { rewrite map_app in H. simpl in H. apply NoDup_app in H.
      destruct H as (_ & H & _). intros Hin. apply (H k0).
      - now apply list_elem_of_In.
      - left. }
    rewrite (obj_set_fresh _ _ _ Hn), IH; rewrite <- app_assoc; [reflexivity|].
    exact H.
Qed.

(** Entries with distinct keys are the table they make. *)
Lemma fromEntries_id (es : list (string * A)) :
  NoDup (map fst es) -> Object_fromEntries es = es.
Proof. intros H. unfold Object_fromEntries. now rewrite fold_set_fresh. Qed.

Lemma insert_index_Permutation (x : N * string) l :
  Permutation (insert_index x l) (x :: l).
Proof.
  induction l as [|y l IH]; simpl; [reflexivity|].
  destruct (fst x <=? fst y)%N; [reflexivity|].
  rewrite IH. apply perm_swap.
Qed.

(** [Object.keys] lists the own keys, each as often as it is held. *)
Lemma Object_keys_Permutation o : Permutation (Object_keys o) (map fst o).
Proof.
  unfold Object_keys. induction o as [|[k0 v0] o IH]; simpl; [reflexivity|].
  destruct (array_index k0) as [n|].
  - rewrite insert_index_Permutation. simpl. now rewrite IH.
  - rewrite <- Permutation_middle. now rewrite IH.
Qed.

Lemma Object_keys_NoDup o : NoDup (map fst o) -> NoDup (Object_keys o).
Proof. intros H. now rewrite Object_keys_Permutation. Qed.

(** Without array-index keys [Object.keys] is the insertion order. *)
Lemma Object_keys_plain o :
  (forall k, In k (map fst o) -> array_index k = None) ->
  Object_keys o = map fst o.
Proof.
  intros H. unfold Object_keys.
  assert (Hk : index_keys o = [] /\ name_keys o = map fst o).
  { induction o as [|[k0 v0] o IH]; simpl in *; [auto|].
    rewrite (H k0 (or_introl eq_refl)).
    destruct (IH (fun k Hk => H k (or_intror Hk))) as [H1 H2].
    split; [assumption|]. now rewrite H2. }
  destruct Hk as [-> ->]. reflexivity.
Qed.

Lemma Object_entries_In o k v :
  In (k, v) (Object_entries o) <-> obj_get k o = Some v.
Proof.
  unfold Object_entries. rewrite in_flat_map. split.
  - intros [k' [_ Hin]]. destruct (obj_get k' o) as [v'|] eqn:E; [|destruct Hin].
    destruct Hin as [[= <- <-]|[]]. assumption.
  - intros H. exists k. split.
    + apply Object_keys_In. apply obj_get_In in H.
      apply in_map_iff. exists (k, v). auto.
    + rewrite H. now left.
Qed.

Lemma flat_map_pointwise {X Y} (f g : X -> list Y) (l : list X) :
  (forall x, In x l -> f x = g x) -> flat_map f l = flat_map g l.
Proof.
  induction l as [|x l IH]; simpl; intros H; [reflexivity|].
  rewrite (H x (or_introl eq_refl)), IH; auto.
Qed.

Lemma entries_of_list o :
  NoDup (map fst o) ->
  flat_map (fun k => match obj_get k o with Some v => [(k, v)] | None => [] end)
    (map fst o) = o.
Proof.
  induction o as [|[k0 v0] o IH]; simpl; intros H; [reflexivity|].
  rewrite String.eqb_refl. simpl. apply NoDup_cons in H. destruct H as [Hn Hd]. f_equal.
  rewrite <- (IH Hd) at 2. apply flat_map_pointwise. intros k Hk.
  destruct (String.eqb k k0) eqn:E; [|reflexivity].
  apply String.eqb_eq in E. subst. exfalso. apply Hn. now apply list_elem_of_In.
Qed.

(** A table with distinct keys, none an array index, is its own list of
    entries. *)
Lemma Object_entries_plain o :
  NoDup (map fst o) ->
  (forall k, In k (map fst o) -> array_index k = None) ->
  Object_entries o = o.
Proof.
  intros Hd Hp. unfold Object_entries. rewrite (Object_keys_plain _ Hp).
  now apply entries_of_list.
Qed.

End MoreTables.

(** ** The tree-shaking check *)

Lemma fold_left_pushes {X Y} (f : X -> list Y) (l : list X) (acc : list Y) :
  fold_left (fun acc x => acc ++ f x) l acc = acc ++ flat_map f l.
Proof.
  revert acc. induction l as [|x l IH]; intros acc; simpl.
  - now rewrite app_nil_r.
  - now rewrite IH, <- app_assoc.
Qed.

Lemma filter_keys_NoDup {A} (p : string * A -> bool) (o : JsObject A) :
  NoDup (map fst o) -> NoDup (map fst (List.filter p o)).
Proof.
  induction o as [|e o IH]; simpl; intros H; [assumption|].
  apply NoDup_cons in H. destruct H as [Hn Hd].
  destruct (p e); simpl; [|auto].
  apply NoDup_cons. split; [|auto].
  rewrite list_elem_of_In, in_map_iff. intros [e' [He Hin]].
  apply filter_In in Hin. apply Hn. rewrite list_elem_of_In, in_map_iff.
  exists e'. tauto.
Qed.

Lemma pushed_In (k : string) (v : ExportsValue) (p : string) :
  In p (pushed (k, v)) <->
  k <> "./package.json" /\
  (v = ExportPath p \/ (v = ExportMap (Some (ImportPath p)) /\ p <> "")).
Proof.
  unfold pushed. simpl. destruct (String.eqb k "./package.json") eqn:E.
  - apply String.eqb_eq in E. simpl. tauto.
  - apply String.eqb_neq in E. destruct v as [q|[[q|]|]]; simpl.
    + split.
      * intros [->|[]]. auto.
      * intros [_ [[= ->]|[[=] _]]]. now left.
    + destruct (String.eqb q "") eqn:Eq; simpl.
      * apply String.eqb_eq in Eq. subst. split; [intros []|].
        intros [_ [[=]|[[= <-] H]]]. congruence.
      * apply String.eqb_neq in Eq. split.
        -- intros [->|[]]. auto.
        -- intros [_ [[=]|[[= ->] _]]]. now left.
    + split; [intros []|]. intros [_ [[=]|[[=] _]]].
    + split; [intros []|]. intros [_ [[=]|[[=] _]]].
Qed.

Lemma pushed_package_json (v : ExportsValue) : pushed ("./package.json", v) = [].
Proof. reflexivity. Qed.

Lemma filtered_exports_get (o : JsObject ExportsValue) k v :
  obj_get k
    (Object_fromEntries
       (List.filter (fun kv => negb (String.eqb (fst kv) "./package.json"))
          (Object_entries o))) = Some v <->
  obj_get k o = Some v /\ k <> "./package.json".
Proof.
  split.
  - intros H. apply fromEntries_get, filter_In in H. destruct H as [H1 H2].
    apply Object_entries_In in H1. simpl in H2. apply negb_true_iff in H2.
    apply String.eqb_neq in H2. auto.
  - intros [H1 H2].
    assert (Hin : In (k, v)
                    (List.filter (fun kv => negb (String.eqb (fst kv) "./package.json"))
                       (Object_entries o))).
    { apply filter_In. split; [now apply Object_entries_In|].
      simpl. apply negb_true_iff. now apply String.eqb_neq. }
    destruct (obj_get k (Object_fromEntries _)) as [v'|] eqn:E.
    + apply fromEntries_get, filter_In in E. destruct E as [E _].
      apply Object_entries_In in E. congruence.
    + apply obj_get_None in E. exfalso. apply E.
      apply fromEntries_keys. apply in_map_iff. exists (k, v). auto.
Qed.

(** X1. [listEntrypoints] throws "No exports found in package.json"
    exactly when package.json has no [exports].  Otherwise a path is an
    entry point exactly when some export other than "./package.json" is
    that string, or is a map whose [import] is that string and not
    empty. *)
Theorem listEntrypoints_members (pkg : PackageJSON) :
  (exports pkg = None ->
   listEntrypoints pkg = inl (Error "No exports found in package.json"))
  /\ (forall o, exports pkg = Some o ->
        exists l, listEntrypoints pkg = inr l /\
          forall p, In p l <->
            exists k v, obj_get k o = Some v /\ k <> "./package.json" /\
              (v = ExportPath p \/ (v = ExportMap (Some (ImportPath p)) /\ p <> ""))).
Proof.
  unfold listEntrypoints. split.
  - now intros ->.
  - intros o ->. eexists. split; [reflexivity|]. intros p.
    rewrite fold_left_pushes. simpl. rewrite in_flat_map. split.
    + intros [[k v] [Hin Hp]]. apply Object_entries_In, filtered_exports_get in Hin.
      apply pushed_In in Hp. exists k, v. tauto.
    + intros [k [v [Hg [Hk Hv]]]]. exists (k, v). split.
      * apply Object_entries_In, filtered_exports_get. auto.
      * apply pushed_In. auto.
Qed.

(** X2. Where the keys of [exports] are distinct and none is an array
    index, the entry points come in the order of the exports: each
    export gives the path it pushes, one after the other. *)
Theorem listEntrypoints_in_export_order (pkg : PackageJSON) (o : JsObject ExportsValue) :
  exports pkg = Some o ->
  NoDup (map fst o) ->
  (forall k, In k (map fst o) -> array_index k = None) ->
  listEntrypoints pkg = inr (flat_map pushed o).
Proof.
  intros He Hd Hp. unfold listEntrypoints. rewrite He.
  rewrite (Object_entries_plain _ Hd Hp).
  set (keep := fun kv : string * ExportsValue =>
                 negb (String.eqb (fst kv) "./package.json")).
  assert (Hd' : NoDup (map fst (List.filter keep o))) by now apply filter_keys_NoDup.
  assert (Hp' : forall k, In k (map fst (List.filter keep o)) -> array_index k = None).
  { intros k Hk. apply Hp. apply in_map_iff in Hk. destruct Hk as [e [He' Hin]].
    apply filter_In in Hin. apply in_map_iff. exists e. tauto. }
  rewrite (fromEntries_id _ Hd'), (Object_entries_plain _ Hd' Hp').
  rewrite fold_left_pushes. simpl. f_equal.
  clear. induction o as [|[k v] o IH]; simpl; [reflexivity|].
  unfold keep at 1. simpl. destruct (String.eqb k "./package.json") eqn:E; simpl.
  - apply String.eqb_eq in E. subst. now rewrite pushed_package_json.
  - now rewrite IH.
Qed.

Section Checking.

Context {SM : StringMethods}.

Lemma append_empty (s t : string) : s +:+ t = "" <-> s = "" /\ t = "".
Proof.
  destruct s as [|c s].
  - change ("" +:+ t) with t. tauto.
  - change (String c s +:+ t) with (String c (s +:+ t)).
    split; [discriminate|]. intros [[=] _].
Qed.

Lemma sideEffectLine_empty (args : list string) :
  sideEffectLine args = "" <->
  startsWith (trim (join " " args)) "First side effect in" = false.
Proof.
  unfold sideEffectLine.
  destruct (startsWith (trim (join " " args)) "First side effect in").
  - rewrite append_empty. split; [intros [_ [=]]|discriminate].
  - tauto.
Qed.

Lemma fold_side_effects_empty (calls : list (list string)) (acc : string) :
  fold_left (fun sideEffects args => sideEffects +:+ sideEffectLine args) calls acc = ""
  <-> acc = "" /\ forall args, In args calls -> sideEffectLine args = "".
Proof.
  revert acc. induction calls as [|a calls IH]; intros acc; simpl.
  - split; [intros ->; split; [reflexivity|intros ? []]|tauto].
  - rewrite IH, append_empty. split.
    + intros [[-> Ha] H]. split; [reflexivity|]. intros args [<-|Hin]; auto.
    + intros [-> H]. auto.
Qed.

(** A report has side effects exactly when some logged line, trimmed,
    starts with "First side effect in". *)
Lemma reportOf_hasSideEffects (calls : list (list string)) :
  hasSideEffects (reportOf calls) = true <->
  exists args, In args calls /\
    startsWith (trim (join " " args)) "First side effect in" = true.
Proof.
  unfold reportOf, sideEffectsOf. simpl. rewrite negb_true_iff.
  split.
  - intros H. apply String.eqb_neq in H.
    destruct (existsb (fun args => startsWith (trim (join " " args)) "First side effect in")
                calls) eqn:E.
    + apply existsb_exists in E. exact E.
    + exfalso. apply H. apply fold_side_effects_empty. split; [reflexivity|].
      intros args Hin. apply sideEffectLine_empty.
      destruct (startsWith (trim (join " " args)) "First side effect in") eqn:S;
        [|reflexivity].
      assert (existsb (fun args => startsWith (trim (join " " args))
                                     "First side effect in") calls = true)
        by (apply existsb_exists; eauto).
      congruence.
  - intros [args [Hin Hs]]. apply String.eqb_neq. intros H.
    apply fold_side_effects_empty in H. destruct H as [_ H].
    apply H, sideEffectLine_empty in Hin. congruence.
Qed.

Section Bundling.

Variable rollup : list External -> string -> Exn + list (list string).
Variable externals : list External.

(** The reports of [bundleAll] are the reports of its entry points, and
    every entry point has one. *)
Lemma bundleAll_reports (entrypoints : list string) :
  forall (m0 m : list (string * Report)),
    bundleAll rollup externals entrypoints m0 = inr m ->
    (forall ep, In ep entrypoints -> exists calls, rollup externals ep = inr calls)
    /\ (forall ep, In ep entrypoints -> In ep (map fst m))
    /\ (forall k, In k (map fst m0) -> In k (map fst m))
    /\ (forall k r, In (k, r) m ->
          In (k, r) m0 \/
          (In k entrypoints /\ exists calls,
              rollup externals k = inr calls /\ r = reportOf calls)).
Proof.
  induction entrypoints as [|ep eps IH]; intros m0 m; simpl.
  - intros [= <-]. repeat split; tauto.
  - destruct (rollup externals ep) as [e|calls] eqn:R; [discriminate|].
    intros H. apply IH in H. destruct H as (H1 & H2 & H3 & H4).
    repeat split.
    + intros ep' [<-|Hin]; eauto.
    + intros ep' [<-|Hin]; auto. apply H3, obj_set_keys. now left.
    + intros k Hk. apply H3, obj_set_keys. now right.
    + intros k r Hin. apply H4 in Hin. destruct Hin as [Hin|[Hin Hr]].
      * apply obj_set_In in Hin. destruct Hin as [[= -> ->]|Hin]; [|now left].
        right. split; [now left|eauto].
      * right. split; [now right|assumption].
Qed.

(** [bundleAll] throws exactly when bundling some entry point throws. *)
Lemma bundleAll_throws (entrypoints : list string) :
  forall (m0 : list (string * Report)),
    (exists e, bundleAll rollup externals entrypoints m0 = inl e) <->
    (exists ep e, In ep entrypoints /\ rollup externals ep = inl e).
Proof.
  induction entrypoints as [|ep eps IH]; intros m0; simpl.
  - split; [intros [e [=]]|intros [ep [e [[] _]]]].
  - destruct (rollup externals ep) as [e|calls] eqn:R.
    + split; [|eauto]. intros _. exists ep, e. auto.
    + rewrite IH. split.
      * intros [ep' [e [Hin He]]]. exists ep', e. auto.
      * intros [ep' [e [[<-|Hin] He]]]; [congruence|eauto].
Qed.

End Bundling.

Lemma failureLines_none (m : list (string * Report)) :
  existsb (fun er => hasSideEffects (snd er)) m = false -> failureLines m = [].
Proof.
  unfold failureLines. induction m as [|er m IH]; simpl; [reflexivity|].
  intros H. apply orb_false_iff in H. destruct H as [H1 H2].
  now rewrite H1, IH.
Qed.

(** X3. When bundling throws for no entry point, [checkTreeShaking]
    throws nothing and puts the original [console.log] back; it exits
    with code 1 exactly when, for some entry point, the bundler logs a
    line that, trimmed, starts with "First side effect in", and
    otherwise prints "Tree shaking checks passed!" and nothing else:
    no line the bundler logs is printed. *)
Theorem checkTreeShaking_fails_on_side_effects
    (rollup : list External -> string -> Exn + list (list string))
    (pkg : PackageJSON) (extraInternals : option (list External))
    (entrypoints : list string) :
  listEntrypoints pkg = inr entrypoints ->
  (forall ep, In ep entrypoints ->
     exists calls,
       rollup (listExternals pkg (nullish extraInternals [])) ep = inr calls) ->
  let out := checkTreeShaking rollup pkg extraInternals in
  thrown out = None
  /\ consoleLog out = OriginalLog
  /\ (exitCode out = Some 1 <->
      exists ep calls args,
        In ep entrypoints
        /\ rollup (listExternals pkg (nullish extraInternals [])) ep = inr calls
        /\ In args calls
        /\ startsWith (trim (join " " args)) "First side effect in" = true)
  /\ (exitCode out <> Some 1 ->
      exitCode out = None /\ printed out = ["Tree shaking checks passed!"]).
Proof.
  intros Hl Hok. unfold checkTreeShaking. rewrite Hl.
  set (externals := listExternals pkg (nullish extraInternals [])) in *.
  destruct (bundleAll rollup externals entrypoints []) as [e|m] eqn:B.
  { exfalso.
    destruct (proj1 (bundleAll_throws rollup externals entrypoints [])
                (ex_intro _ e B)) as [ep [e' [Hin He]]].
    destruct (Hok ep Hin) as [calls Hc]. congruence. }
  destruct (bundleAll_reports rollup externals entrypoints [] m B) as (_ & H2 & _ & H4).
  assert (Hex : existsb (fun er => hasSideEffects (snd er)) m = true <->
                exists ep calls args,
                  In ep entrypoints /\ rollup externals ep = inr calls
                  /\ In args calls
                  /\ startsWith (trim (join " " args)) "First side effect in" = true).
  { rewrite existsb_exists. split.
    - intros [[k r] [Hin Hs]]. simpl in Hs.
      destruct (H4 k r Hin) as [[]|[Hk [calls [Hc ->]]]].
      apply reportOf_hasSideEffects in Hs. destruct Hs as [args [Ha Hs]].
      exists k, calls, args. auto.
    - intros [ep [calls [args [Hin [Hc [Ha Hs]]]]]].
      apply H2, in_map_iff in Hin. destruct Hin as [[k r] [Hk Hin]].
      simpl in Hk. subst k. exists (ep, r). split; [assumption|]. simpl.
      destruct (H4 ep r Hin) as [[]|[_ [calls' [Hc' ->]]]].
      apply reportOf_hasSideEffects. exists args. split; [congruence|assumption]. }
  simpl. destruct (existsb (fun er => hasSideEffects (snd er)) m) eqn:E; simpl.
  - repeat split; tauto.
  - split; [reflexivity|]. split; [reflexivity|]. split.
    + split; [discriminate|]. intros H. apply Hex in H. discriminate.
    + intros _. split; [reflexivity|]. now rewrite (failureLines_none _ E).
Qed.

(** X4. [checkTreeShaking] throws exactly when package.json has no
    [exports] or bundling some entry point throws.  Then nothing is
    printed and the process is not exited; and [console.log] is left
    replaced by the filter exactly in the second case. *)
Theorem checkTreeShaking_throws
    (rollup : list External -> string -> Exn + list (list string))
    (pkg : PackageJSON) (extraInternals : option (list External)) :
  let out := checkTreeShaking rollup pkg extraInternals in
  let bundlingThrows :=
    exists entrypoints ep e,
      listEntrypoints pkg = inr entrypoints /\ In ep entrypoints
      /\ rollup (listExternals pkg (nullish extraInternals [])) ep = inl e in
  (thrown out <> None <-> exports pkg = None \/ bundlingThrows)
  /\ (thrown out <> None -> printed out = [] /\ exitCode out = None)
  /\ (consoleLog out = FilterLog <-> bundlingThrows).
Proof.
  cbv zeta. unfold checkTreeShaking.
  set (externals := listExternals pkg (nullish extraInternals [])).
  destruct (listEntrypoints pkg) as [e|entrypoints] eqn:L.
  - assert (He : exports pkg = None).
    { unfold listEntrypoints in L. now destruct (exports pkg). }
    simpl. split; [|split].
    + split; [auto|discriminate].
    + auto.
    + split; [discriminate|]. intros (eps & ep & e' & Hl & _). discriminate.
  - assert (He : exports pkg <> None).
    { unfold listEntrypoints in L. now destruct (exports pkg). }
    pose proof (bundleAll_throws rollup externals entrypoints []) as Ht.
    destruct (bundleAll rollup externals entrypoints []) as [e|m] eqn:B.
    + destruct (proj1 Ht (ex_intro _ e eq_refl)) as (ep & e' & Hin & Hr).
      assert (Hb : exists eps ep0 e0,
                 @inr Exn (list string) entrypoints = inr eps /\ In ep0 eps
                 /\ rollup externals ep0 = inl e0)
        by (exists entrypoints, ep, e'; auto).
      simpl. split; [|split].
      * split; [auto|discriminate].
      * auto.
      * split; auto.
    + assert (Hno : ~ exists eps ep e,
                  @inr Exn (list string) entrypoints = inr eps /\ In ep eps
                  /\ rollup externals ep = inl e).
      { intros (eps & ep & e & Heq & Hin & Hr). injection Heq as <-.
        destruct (proj2 Ht (ex_intro _ ep (ex_intro _ e (conj Hin Hr)))) as [e' Hd].
        discriminate. }
      destruct (existsb (fun er => hasSideEffects (snd er)) m); simpl.
      * split; [|split].
        -- split; [congruence|]. intros [H|H]; [congruence|tauto].
        -- congruence.
        -- split; [discriminate|tauto].
      * split; [|split].
        -- split; [congruence|]. intros [H|H]; [congruence|tauto].
        -- congruence.
        -- split; [discriminate|tauto].
Qed.

(** *** What the check prints *)

Lemma append_right_empty (s : string) : s +:+ "" = s.
Proof.
  induction s as [|c s IH]; [reflexivity|].
  change (String c s +:+ "") with (String c (s +:+ "")). now rewrite IH.
Qed.

Lemma append_associative (s t u : string) : (s +:+ t) +:+ u = s +:+ (t +:+ u).
Proof.
  induction s as [|c s IH]; [reflexivity|].
  change (String c s +:+ t) with (String c (s +:+ t)).
  change (String c (s +:+ t) +:+ u) with (String c ((s +:+ t) +:+ u)).
  change (String c s +:+ (t +:+ u)) with (String c (s +:+ (t +:+ u))).
  now rewrite IH.
Qed.

Lemma concat_empty_cons (x : string) (xs : list string) :
  String.concat "" (x :: xs) = x +:+ String.concat "" xs.
Proof.
  destruct xs as [|y ys]; simpl.
  - now rewrite append_right_empty.
  - reflexivity.
Qed.

(** The lines that make up the log of a report: the calls that the
    filter keeps, each with a line feed. *)
Lemma fold_side_effects (calls : list (list string)) (acc : string) :
  fold_left (fun sideEffects args => sideEffects +:+ sideEffectLine args) calls acc =
  acc +:+ String.concat ""
            (map (fun args => join " " args +:+ String (ascii_of_N 10) "")
               (List.filter
                  (fun args => startsWith (trim (join " " args)) "First side effect in")
                  calls)).
Proof.
  revert acc. induction calls as [|a calls IH]; intros acc.
  - simpl. now rewrite append_right_empty.
  - cbn [fold_left List.filter]. rewrite IH. unfold sideEffectLine at 1. cbv zeta.
    destruct (startsWith (trim (join " " a)) "First side effect in").
    + cbn [map]. rewrite concat_empty_cons. now rewrite append_associative.
    + now rewrite append_right_empty.
Qed.

Lemma reportOf_flagged (calls : list (list string)) :
  reportOf calls =
  let flagged :=
    List.filter (fun args => startsWith (trim (join " " args)) "First side effect in")
      calls in
  mkReport
    (String.concat "" (map (fun args => join " " args +:+ String (ascii_of_N 10) "") flagged))
    (match flagged with [] => false | _ => true end).
Proof.
  cbv zeta.
  assert (Hl : reportLog (reportOf calls) =
               String.concat ""
                 (map (fun args => join " " args +:+ String (ascii_of_N 10) "")
                    (List.filter
                       (fun args => startsWith (trim (join " " args))
                                      "First side effect in") calls))).
  { unfold reportOf, sideEffectsOf. simpl. now rewrite fold_side_effects. }
  assert (Hs : hasSideEffects (reportOf calls) =
               match List.filter
                       (fun args => startsWith (trim (join " " args))
                                      "First side effect in") calls with
               | [] => false
               | _ => true
               end).
  { pose proof (reportOf_hasSideEffects calls) as H.
    destruct (List.filter _ calls) as [|a l] eqn:F.
    - destruct (hasSideEffects (reportOf calls)); [|reflexivity].
      destruct (proj1 H eq_refl) as [args [Hin Hf]].
      assert (Hin' : In args (List.filter
                                (fun args => startsWith (trim (join " " args))
                                               "First side effect in") calls))
        by (apply filter_In; auto).
      rewrite F in Hin'. destruct Hin'.
    - apply H. exists a.
      assert (Hin : In a (List.filter
                            (fun args => startsWith (trim (join " " args))
                                           "First side effect in") calls))
        by (rewrite F; now left).
      apply filter_In in Hin. exact Hin. }
  destruct (reportOf calls) as [l b]. simpl in Hl, Hs. now subst.
Qed.

Lemma bundleAll_fresh (rollup : list External -> string -> Exn + list (list string))
    (externals : list External) (calls : string -> list (list string))
    (entrypoints : list string) :
  forall m0 : list (string * Report),
    NoDup entrypoints ->
    (forall ep, In ep entrypoints -> ~ In ep (map fst m0)) ->
    (forall ep, In ep entrypoints -> rollup externals ep = inr (calls ep)) ->
    bundleAll rollup externals entrypoints m0 =
    inr (m0 ++ map (fun ep => (ep, reportOf (calls ep))) entrypoints).
Proof.
  induction entrypoints as [|ep eps IH]; intros m0 Hd Hf Hr.
  - simpl. now rewrite app_nil_r.
  - apply NoDup_cons in Hd. destruct Hd as [Hn Hd]. rewrite list_elem_of_In in Hn.
    cbn [bundleAll]. rewrite (Hr ep) by now left.
    rewrite obj_set_fresh by (apply Hf; now left).
    rewrite IH; auto.
    + cbn [map]. now rewrite <- app_assoc.
    + intros ep' Hin. rewrite map_app, in_app_iff. simpl.
      intros [H|[<-|[]]]; [|tauto]. apply (Hf ep'); [now right|assumption].
    + intros ep' Hin. apply Hr. now right.
Qed.

Lemma failureLines_of_reports (calls : string -> list (list string))
    (entrypoints : list string) :
  failureLines (map (fun ep => (ep, reportOf (calls ep))) entrypoints) =
  flat_map (fun ep => ["---------------------------------";
                       "Tree shaking failed for " +:+ ep;
                       reportLog (reportOf (calls ep))])
    (List.filter (fun ep => hasSideEffects (reportOf (calls ep))) entrypoints).
Proof.
  unfold failureLines. induction entrypoints as [|ep eps IH]; [reflexivity|].
  cbn [map flat_map List.filter fst snd].
  destruct (hasSideEffects (reportOf (calls ep))).
  - cbn [flat_map]. now rewrite IH.
  - now rewrite IH.
Qed.

Lemma existsb_of_reports (calls : string -> list (list string))
    (entrypoints : list string) :
  existsb (fun er => hasSideEffects (snd er))
    (map (fun ep => (ep, reportOf (calls ep))) entrypoints) =
  match List.filter (fun ep => hasSideEffects (reportOf (calls ep))) entrypoints with
  | [] => false
  | _ => true
  end.
Proof.
  induction entrypoints as [|ep eps IH]; [reflexivity|].
  cbn [map existsb List.filter snd].
  destruct (hasSideEffects (reportOf (calls ep))); [reflexivity|]. exact IH.
Qed.

(** X18. For distinct entry points that all bundle without throwing,
    [checkTreeShaking] prints, for each entry point for which the
    bundler logged a line that, trimmed, starts with "First side effect
    in", in the order of the entry points: a line of 33 dashes, "Tree
    shaking failed for " with the entry point, and those logged lines,
    each with a line feed after it; and after them "Tree shaking checks
    passed!" exactly when there was no such entry point. *)
Theorem checkTreeShaking_prints_reports
    (rollup : list External -> string -> Exn + list (list string))
    (pkg : PackageJSON) (extraInternals : option (list External))
    (entrypoints : list string) (calls : string -> list (list string)) :
  listEntrypoints pkg = inr entrypoints ->
  NoDup entrypoints ->
  (forall ep, In ep entrypoints ->
     rollup (listExternals pkg (nullish extraInternals [])) ep = inr (calls ep)) ->
  let flagged ep :=
    List.filter (fun args => startsWith (trim (join " " args)) "First side effect in")
      (calls ep) in
  let log ep :=
    String.concat ""
      (map (fun args => join " " args +:+ String (ascii_of_N 10) "") (flagged ep)) in
  let failing :=
    List.filter (fun ep => match flagged ep with [] => false | _ => true end)
      entrypoints in
  printed (checkTreeShaking rollup pkg extraInternals) =
  flat_map (fun ep => ["---------------------------------";
                       "Tree shaking failed for " +:+ ep;
                       log ep]) failing
  ++ match failing with [] => ["Tree shaking checks passed!"] | _ => [] end.
Proof.
  intros Hl Hd Hr. cbv zeta. unfold checkTreeShaking. rewrite Hl.
  rewrite (bundleAll_fresh rollup _ calls entrypoints [] Hd) by (auto; intros ? ? []).
  cbn [app]. rewrite existsb_of_reports, failureLines_of_reports.
  assert (Hf : List.filter (fun ep => hasSideEffects (reportOf (calls ep))) entrypoints =
               List.filter
                 (fun ep =>
                    match List.filter
                            (fun args => startsWith (trim (join " " args))
                                           "First side effect in") (calls ep) with
                    | [] => false
                    | _ => true
                    end) entrypoints).
  { apply filter_ext. intros ep. now rewrite reportOf_flagged. }
  rewrite Hf. clear Hf.
  assert (Hm : forall l : list string,
             flat_map (fun ep => ["---------------------------------";
                                  "Tree shaking failed for " +:+ ep;
                                  reportLog (reportOf (calls ep))]) l =
             flat_map (fun ep =>
                         ["---------------------------------";
                          "Tree shaking failed for " +:+ ep;
                          String.concat ""
                            (map (fun args => join " " args +:+ String (ascii_of_N 10) "")
                               (List.filter
                                  (fun args => startsWith (trim (join " " args))
                                                 "First side effect in") (calls ep)))]) l).
  { intros l. apply flat_map_pointwise. intros ep _. now rewrite reportOf_flagged. }
  rewrite Hm. clear Hm.
  destruct (List.filter _ entrypoints) as [|ep l]; simpl.
  - reflexivity.
  - now rewrite app_nil_r.
Qed.

End Checking.

(** ** The loop of the executor and the generator of the iterator *)

Section MoreProperties.

Context {W : Type} {SM : StringMethods}.
Implicit Types (ex : @AgentExecutor W) (t : @Tool W) (a : AgentAction) (w : W).

#[local] Arguments callAction : simpl never.
#[local] Arguments takeAction : simpl never.
#[local] Arguments toolsByName : simpl never.
#[local] Arguments nameToToolMap : simpl never.
#[local] Arguments getOutput : simpl never.
#[local] Arguments shouldContinue : simpl never.
#[local] Arguments _return : simpl never.
#[local] Arguments _takeNextStep : simpl never.
#[local] Arguments _getToolReturn : simpl never.

Ltac run_monad :=
  repeat progress
    (unfold ExceptionTool_call, ExceptionTool__call, await, this, update, bind, ret,
       throw, try_catch in *; simpl in * ).

Ltac rethrow :=
  match goal with
  | |- context [startsWith ?m ?p] => destruct (startsWith m p); simpl; try reflexivity
  end.

(** One pull of the suspended generator, while no final outputs are
    stored, in terms of what the collaborators answer. *)
Lemma pull_unfolded J ex ins steps i w :
  streamIterator_next J SuspendedYield (mkIterator ex ins None steps i, w) =
  let it := mkIterator ex ins None steps i in
  let finishing (output : ChainValues) (steps' : list AgentStep) (i' : Z)
        (yielded : ChainValues) (w1 : W) :=
    match prepOutputs ex ins output true w1 with
    | (inl e, w2) => (inl e, Completed, (mkIterator ex ins None steps' i, w2))
    | (inr p, w2) =>
        (inr (Yielded yielded), SuspendedYield,
         (mkIterator ex ins (Some p) steps' i', w2))
    end in
  if shouldContinue ex i then
    match _takeNextStep ex (nameToToolMap ex) ins steps w with
    | (inl e, w1) => (inl e, Completed, (it, w1))
    | (inr (inl f), w1) =>
        finishing (_return ex f steps) steps (i + 1) (_return ex f steps) w1
    | (inr (inr res), w1) =>
        let batch : ChainValues := {[ "intermediateSteps" := VSteps res ]} in
        let plain :=
          (inr (Yielded batch), SuspendedYield,
           (mkIterator ex ins None (steps ++ res) (i + 1), w1)) in
        match res with
        | [s] =>
            match _getToolReturn ex s with
            | Some fin =>
                finishing (_return ex fin (steps ++ res)) (steps ++ res) (i + 1) batch w1
            | None => plain
            end
        | _ => plain
        end
    end
  else
    match returnStoppedResponse (agent ex) (earlyStoppingMethod ex) steps ins w with
    | (inl e, w1) => (inl e, Completed, (it, w1))
    | (inr f, w1) => finishing (_return ex f steps) steps i (_return ex f steps) w1
    end.
Proof.
  cbv zeta.
  unfold streamIterator_next, streamIterator_body, _callNext, _stop, _executeNextStep.
  run_monad. destruct (shouldContinue ex i); simpl.
  - destruct (_takeNextStep ex (nameToToolMap ex) ins steps w) as [[e|[f|res]] w1]; simpl.
    + rethrow.
    + unfold _processNextStepOutput, setFinalOutputs. run_monad.
      destruct (prepOutputs ex ins (_return ex f steps) true w1) as [[e|p] w2]; simpl;
        [rethrow|reflexivity].
    + unfold _processNextStepOutput, setFinalOutputs. run_monad.
      destruct res as [|s [|s' res]]; simpl; try reflexivity.
      destruct (_getToolReturn ex s) as [fin|]; simpl; [|reflexivity].
      destruct (prepOutputs ex ins (_return ex fin (steps ++ [s])) true w1)
        as [[e|p] w2]; simpl; [rethrow|reflexivity].
  - destruct (returnStoppedResponse (agent ex) (earlyStoppingMethod ex) steps ins w)
      as [[e|f] w1]; simpl.
    + rethrow.
    + unfold setFinalOutputs. run_monad.
      destruct (prepOutputs ex ins (_return ex f steps) true w1) as [[e|p] w2]; simpl;
        [rethrow|reflexivity].
Qed.


(** *** What a cycle records *)

Lemma callAction_action ex (byName : JsObject (@Tool W)) a w s w' :
  callAction ex byName a w = (inr s, w') -> action s = a.
Proof.
  unfold callAction.
  match goal with
  | |- context [match ?X with (_, _) => _ end] => destruct X as [[e|o] w1]
  end.
  - destruct e; try (now intros [= <- _]).
    destruct (toolInputObservation ex _); [|discriminate].
    run_monad. now intros [= <- _].
  - now intros [= <- _].
Qed.

Lemma mapM_actions (f : AgentAction -> M W AgentStep) :
  (forall a w s w', f a w = (inr s, w') -> action s = a) ->
  forall l w res w', mapM f l w = (inr res, w') -> map action res = l.
Proof.
  intros Hf. induction l as [|a l IH]; intros w res w'; simpl.
  - run_monad. now intros [= <- _].
  - unfold bind at 1. destruct (f a w) as [[e|s] w1] eqn:Ha; [discriminate|].
    unfold bind at 1. destruct (mapM f l w1) as [[e|bs] w2] eqn:Hl; [discriminate|].
    run_monad. intros [= ? ?]. subst. simpl.
    now rewrite (Hf _ _ _ _ Ha), (IH _ _ _ Hl).
Qed.

Lemma callCycle_appends ex (byName : JsObject (@Tool W)) ins (steps : list AgentStep) w
    steps' w' :
  callCycle ex byName ins steps w = (inr (Continue steps'), w') ->
  exists out w1 new,
    planOrRecover ex steps ins w = (inr out, w1)
    /\ steps' = steps ++ new
    /\ map action new = actionsOf out.
Proof.
  unfold callCycle. unfold bind at 1.
  destruct (planOrRecover ex steps ins w) as [[e|out] w1]; [discriminate|].
  assert (Hact :
    (newSteps <- mapM (callAction ex byName) (actionsOf out) ;;
     match last (steps ++ newSteps) with
     | Some lastStep =>
         match obj_get (toLowerCase (tool (action lastStep))) byName with
         | Some lastTool =>
             if returnDirect lastTool
             then out0 <- getOutput ex (steps ++ newSteps)
                            (mkFinish {[ firstReturnKey (agent ex) :=
                                           VString (observation lastStep) ]} "") ;;
                  ret (Returned out0)
             else ret (Continue (steps ++ newSteps))
         | None => ret (Continue (steps ++ newSteps))
         end
     | None => throw (TypeError "Cannot read properties of undefined (reading 'action')")
     end) w1 = (inr (Continue steps'), w') ->
    exists new, steps' = steps ++ new /\ map action new = actionsOf out).
  { unfold bind at 1.
    destruct (mapM (callAction ex byName) (actionsOf out) w1) as [[e|new] w2] eqn:Hm;
      [discriminate|].
    pose proof (mapM_actions _ (callAction_action ex byName) _ _ _ _ Hm) as Hmap.
    destruct (last (steps ++ new)) as [s|]; [|discriminate].
    destruct (obj_get (toLowerCase (tool (action s))) byName) as [t|].
    - destruct (returnDirect t).
      + unfold bind. destruct (getOutput _ _ _ _) as [[e|o] w3]; discriminate.
      + intros [= <- _]. eauto.
    - intros [= <- _]. eauto. }
  destruct out as [f|a|l].
  - unfold bind. destruct (getOutput ex steps f w1) as [[e|o] w2]; discriminate.
  - intros H. destruct (Hact H) as [new Hn]. eauto.
  - intros H. destruct (Hact H) as [new Hn]. eauto.
Qed.

Lemma takeNextStep_actions ex (table : JsObject (@Tool W)) ins (steps : list AgentStep) w
    res w' :
  _takeNextStep ex table ins steps w = (inr (inr res), w') ->
  exists out w1,
    planOrRecover ex steps ins w = (inr out, w1) /\ map action res = actionsOf out.
Proof.
  unfold _takeNextStep. unfold bind at 1.
  destruct (planOrRecover ex steps ins w) as [[e|out] w1]; [discriminate|].
  destruct out as [f|a|l]; [discriminate| |];
    (unfold bind;
     match goal with
     | |- context [mapM ?f ?l ?w0] => destruct (mapM f l w0) as [[e|r] w2] eqn:Hm
     end; [discriminate|];
     intros [= <- <-]; eexists _, _; split; [reflexivity|];
     exact (mapM_actions _ (takeAction_action ex table) _ _ _ _ Hm)).
Qed.

(** What one pull of the suspended generator leaves, while no final
    outputs are stored. *)
Lemma pull_progress J ex ins steps i w r g it' w' :
  streamIterator_next J SuspendedYield (mkIterator ex ins None steps i, w) =
  (r, g, (it', w')) ->
  agentExecutor it' = ex /\ inputs it' = ins
  /\ (exists more, intermediateSteps it' = steps ++ more)
  /\ match r with
     | inl e => g = Completed /\ _finalOutputs it' = None /\ iterations it' = i
     | inr (Done _) => False
     | inr (Yielded v) =>
         g = SuspendedYield
         /\ ((shouldContinue ex i = true /\ iterations it' = i + 1)
             \/ (shouldContinue ex i = false /\ iterations it' = i
                 /\ _finalOutputs it' <> None))
     end
  /\ ((forall o w0 p w1, prepOutputs ex ins o true w0 = (inr p, w1) -> p = o) ->
      returnIntermediateSteps ex = true ->
      forall fo, _finalOutputs it' = Some fo ->
                 fo !! "intermediateSteps" = Some (VSteps (intermediateSteps it'))).
Proof.
  rewrite pull_unfolded. cbv zeta.
  assert (Hret : forall f st, returnIntermediateSteps ex = true ->
                   _return ex f st !! "intermediateSteps" = Some (VSteps st)).
  { intros f st Hf. unfold _return. rewrite Hf. apply lookup_insert_eq. }
  assert (Hnil : exists more : list AgentStep, steps = steps ++ more)
    by (exists []; now rewrite app_nil_r).
  destruct (shouldContinue ex i).
  - destruct (_takeNextStep ex (nameToToolMap ex) ins steps w) as [[e|[f|res]] w1].
    + intros [= <- <- <- <-]. simpl. repeat split; auto. discriminate.
    + destruct (prepOutputs ex ins (_return ex f steps) true w1) as [[e|p] w2] eqn:P;
        intros [= <- <- <- <-]; simpl; repeat split; auto; try discriminate.
      intros Hp Hf fo [= <-]. rewrite (Hp _ _ _ _ P). auto.
    + assert (Hplain :
        (inr (Yielded {[ "intermediateSteps" := VSteps res ]}), SuspendedYield,
         (mkIterator ex ins None (steps ++ res) (i + 1), w1)) = (r, g, (it', w')) ->
        agentExecutor it' = ex /\ inputs it' = ins
        /\ (exists more, intermediateSteps it' = steps ++ more)
        /\ match r with
           | inl e => g = Completed /\ _finalOutputs it' = None /\ iterations it' = i
           | inr (Done _) => False
           | inr (Yielded v) =>
               g = SuspendedYield
               /\ ((true = true /\ iterations it' = i + 1)
                   \/ (true = false /\ iterations it' = i /\ _finalOutputs it' <> None))
           end
        /\ ((forall o w0 p w1, prepOutputs ex ins o true w0 = (inr p, w1) -> p = o) ->
            returnIntermediateSteps ex = true ->
            forall fo, _finalOutputs it' = Some fo ->
                       fo !! "intermediateSteps" = Some (VSteps (intermediateSteps it')))).
      { intros [= <- <- <- <-]. simpl. repeat split; eauto. discriminate. }
      destruct res as [|s [|s' res]]; try exact Hplain.
      destruct (_getToolReturn ex s) as [fin|]; [|exact Hplain].
      destruct (prepOutputs ex ins (_return ex fin (steps ++ [s])) true w1)
        as [[e|p] w2] eqn:P;
        intros [= <- <- <- <-]; simpl; repeat split; eauto; try discriminate.
      intros Hp Hf fo [= <-]. rewrite (Hp _ _ _ _ P). auto.
  - destruct (returnStoppedResponse (agent ex) (earlyStoppingMethod ex) steps ins w)
      as [[e|f] w1].
    + intros [= <- <- <- <-]. simpl. repeat split; auto. discriminate.
    + destruct (prepOutputs ex ins (_return ex f steps) true w1) as [[e|p] w2] eqn:P;
        intros [= <- <- <- <-]; simpl; repeat split; auto; try discriminate.
      intros Hp Hf fo [= <-]. rewrite (Hp _ _ _ _ P). auto.
Qed.

(** X5. In both drivers a cycle that goes on has recorded, after the
    steps already there, one step for each action that was planned (or
    that stands for a recovered parsing error), in the order of the
    actions. *)
Theorem cycle_appends_steps_in_order ex ins (steps : list AgentStep) w :
  (forall byName steps' w',
      callCycle ex byName ins steps w = (inr (Continue steps'), w') ->
      exists out w1 new,
        planOrRecover ex steps ins w = (inr out, w1)
        /\ steps' = steps ++ new
        /\ map action new = actionsOf out)
  /\ (forall J i v g it' w',
        streamIterator_next J SuspendedYield (mkIterator ex ins None steps i, w) =
        (inr (Yielded v), g, (it', w')) ->
        _finalOutputs it' = None ->
        exists out w1 res,
          planOrRecover ex steps ins w = (inr out, w1)
          /\ map action res = actionsOf out
          /\ v = {[ "intermediateSteps" := VSteps res ]}
          /\ intermediateSteps it' = steps ++ res
          /\ iterations it' = i + 1).
Proof.
  split.
  - intros byName steps' w'. apply callCycle_appends.
  - intros J i v g it' w'. rewrite pull_unfolded. cbv zeta.
    destruct (shouldContinue ex i).
    + destruct (_takeNextStep ex (nameToToolMap ex) ins steps w) as [[e|[f|res]] w1] eqn:T.
      * discriminate.
      * destruct (prepOutputs ex ins (_return ex f steps) true w1) as [[e|p] w2];
          [discriminate|].
        intros [= <- <- <- <-]. discriminate.
      * destruct (takeNextStep_actions _ _ _ _ _ _ _ T) as [out [w0 [Hp Hm]]].
        destruct res as [|s [|s' res]].
        -- intros [= <- <- <- <-] _. exists out, w0, []. auto.
        -- destruct (_getToolReturn ex s).
           ++ destruct (prepOutputs ex ins _ true w1) as [[e|p] w2]; [discriminate|].
              intros [= <- <- <- <-]. discriminate.
           ++ intros [= <- <- <- <-] _. exists out, w0, [s]. auto.
        -- intros [= <- <- <- <-] _. exists out, w0. eexists. eauto.
    + destruct (returnStoppedResponse (agent ex) (earlyStoppingMethod ex) steps ins w)
        as [[e|f] w1]; [discriminate|].
      destruct (prepOutputs ex ins (_return ex f steps) true w1) as [[e|p] w2];
        [discriminate|].
      intros [= <- <- <- <-]. discriminate.
Qed.


(** *** Runs of the generator *)

Lemma pull_finished J (it : @AgentExecutorIterator W) w fo :
  _finalOutputs it = Some fo ->
  streamIterator_next J SuspendedYield (it, w) = (inr (Done (Some fo)), Completed, (it, w)).
Proof.
  destruct it as [ex ins fo0 steps i]. simpl. intros ->. apply pull_when_finished.
Qed.

Lemma streamIterator_unfold J fuel (it : @AgentExecutorIterator W) w :
  streamIterator J fuel it w = drain J fuel SuspendedYield (reset it, w).
Proof. now destruct fuel. Qed.

Lemma drain_of_pulls J fuel : forall g (st : @AgentExecutorIterator W * W),
  drain J fuel g st =
  match pulls J fuel g st with
  | Some (_, r, st') => Some (r, st')
  | None => None
  end.
Proof.
  induction fuel as [|fuel IH]; intros g st; [reflexivity|].
  cbn [drain pulls].
  destruct (streamIterator_next J g st) as [[[e|[v|v]] g'] st']; try reflexivity.
  rewrite IH. now destruct (pulls J fuel g' st') as [[[vs r] st'']|].
Qed.

(** What a run of the suspended generator keeps and leaves. *)
Lemma drain_invariants J fuel : forall (it : @AgentExecutorIterator W) w r it' w',
  drain J fuel SuspendedYield (it, w) = Some (r, (it', w')) ->
  (exists more, intermediateSteps it' = intermediateSteps it ++ more)
  /\ iterations it <= iterations it'
  /\ (forall N, maxIterations (agentExecutor it) = Some N ->
                iterations it' <= Z.max N (iterations it))
  /\ match r with
     | inr v => v = _finalOutputs it' /\ v <> None
     | inl e => _finalOutputs it = None /\ _finalOutputs it' = None
     end
  /\ ((forall o w0 p w1,
          prepOutputs (agentExecutor it) (inputs it) o true w0 = (inr p, w1) -> p = o) ->
      returnIntermediateSteps (agentExecutor it) = true ->
      (forall fo, _finalOutputs it = Some fo ->
                  fo !! "intermediateSteps" = Some (VSteps (intermediateSteps it))) ->
      forall fo, _finalOutputs it' = Some fo ->
                 fo !! "intermediateSteps" = Some (VSteps (intermediateSteps it'))).
Proof.
  induction fuel as [|fuel IH]; intros it w r it' w'; [discriminate|].
  cbn [drain]. destruct it as [ex ins [fo|] steps i].
  - rewrite (pull_finished J (mkIterator ex ins (Some fo) steps i) w fo eq_refl).
    intros [= <- <- <-]. simpl.
    repeat split; auto; try lia; try discriminate.
    exists []. now rewrite app_nil_r.
  - destruct (streamIterator_next J SuspendedYield (mkIterator ex ins None steps i, w))
      as [[r0 g] [it1 w1]] eqn:Hn.
    destruct (pull_progress _ _ _ _ _ _ _ _ _ _ Hn) as (He & Hi & [more Hm] & Hr & Hh).
    simpl. destruct r0 as [e|[v|v]].
    + destruct Hr as (_ & Hf & Hit). intros [= <- <- <-].
      repeat split; eauto; try lia.
    + destruct Hr as (-> & Hr). intros Hd.
      destruct (IH _ _ _ _ _ Hd) as ([more' Hm'] & Hle & Hmax & Hres & Hh').
      rewrite He, Hi in *.
      split; [exists (more ++ more'); now rewrite Hm', Hm, app_assoc|].
      split; [destruct Hr as [[_ Hit]|(_ & Hit & _)]; lia|].
      split.
      { intros N HN. specialize (Hmax N HN).
        destruct Hr as [[Hc Hit]|(_ & Hit & _)]; [|lia].
        unfold shouldContinue in Hc. rewrite HN in Hc. apply Z.ltb_lt in Hc. lia. }
      split.
      { destruct r as [e|v']; [|assumption]. destruct Hres as [_ Hres]. auto. }
      intros Hp Hf _. apply Hh'; auto.
    + destruct Hr.
Qed.

(** X6. When the generator of [streamIterator] returns, what it returns
    is the final outputs stored in the iterator, and they are set; when
    it throws, the iterator holds no final outputs. *)
Theorem drained_returns_final_outputs J fuel (it : @AgentExecutorIterator W) w r it' w' :
  streamIterator J fuel it w = Some (r, (it', w')) ->
  match r with
  | inr v => v = _finalOutputs it' /\ v <> None
  | inl e => _finalOutputs it' = None
  end.
Proof.
  rewrite streamIterator_unfold. intros Hd.
  destruct (drain_invariants _ _ _ _ _ _ _ Hd) as (_ & _ & _ & Hr & _).
  destruct r; tauto.
Qed.

(** X7. A run of [streamIterator] leaves the iterator with a count of
    iterations that is not negative and, under [maxIterations = N], not
    above [N] (or 0, when [N] is negative): the counter never passes
    the bound, whatever the collaborators do. *)
Theorem iterator_counts_cycles_within_bound J fuel (it : @AgentExecutorIterator W) w r
    it' w' :
  streamIterator J fuel it w = Some (r, (it', w')) ->
  0 <= iterations it'
  /\ forall N, maxIterations (agentExecutor it) = Some N ->
               iterations it' <= Z.max N 0.
Proof.
  rewrite streamIterator_unfold. intros Hd.
  destruct (drain_invariants _ _ _ _ _ _ _ Hd) as (_ & Hle & Hmax & _).
  simpl in *. auto.
Qed.

(** X8. With [returnIntermediateSteps] set and a [prepOutputs] that
    hands the outputs back, the result that the generator of
    [streamIterator] returns holds, under [intermediateSteps], exactly
    the steps the iterator has recorded. *)
Theorem final_outputs_hold_history J fuel (it : @AgentExecutorIterator W) w out it' w' :
  (forall o w0 p w1,
      prepOutputs (agentExecutor it) (inputs it) o true w0 = (inr p, w1) -> p = o) ->
  returnIntermediateSteps (agentExecutor it) = true ->
  streamIterator J fuel it w = Some (inr (Some out), (it', w')) ->
  out !! "intermediateSteps" = Some (VSteps (intermediateSteps it')).
Proof.
  intros Hp Hf. rewrite streamIterator_unfold. intros Hd.
  destruct (drain_invariants _ _ _ _ _ _ _ Hd) as (_ & _ & _ & [Hv _] & Hh).
  apply Hh; auto. discriminate.
Qed.


(** *** Both drivers settle under an iteration bound *)

Lemma pulls_finished J fuel (it : @AgentExecutorIterator W) w fo :
  _finalOutputs it = Some fo ->
  pulls J (S fuel) SuspendedYield (it, w) = Some ([], inr (Some fo), (it, w)).
Proof. intros H. cbn [pulls]. now rewrite (pull_finished J it w fo H). Qed.

Lemma pulls_unfold J fuel (it : @AgentExecutorIterator W) w :
  pulls J fuel SuspendedStart (it, w) = pulls J fuel SuspendedYield (reset it, w).
Proof. now destruct fuel. Qed.

Lemma pulls_settle J ex ins (N : Z) :
  maxIterations ex = Some N ->
  forall (n fuel : nat) fo steps (i : Z) w,
    N - i <= Z.of_nat n -> (n + 2 <= fuel)%nat ->
    exists vs r st,
      pulls J fuel SuspendedYield (mkIterator ex ins fo steps i, w) = Some (vs, r, st)
      /\ (length vs <= n + 1)%nat.
Proof.
  intros HN. induction n as [|n IH]; intros fuel fo steps i w Hi Hfuel;
    (destruct fuel as [|fuel]; [lia|]);
    (destruct fo as [fo|];
     [rewrite (pulls_finished J fuel (mkIterator ex ins (Some fo) steps i) w fo eq_refl);
      eexists _, _, _; split; [reflexivity|simpl; lia]|]);
    cbn [pulls];
    destruct (streamIterator_next J SuspendedYield (mkIterator ex ins None steps i, w))
      as [[r0 g] [it1 w1]] eqn:Hn;
    destruct (pull_progress _ _ _ _ _ _ _ _ _ _ Hn) as (He & Hins & _ & Hr & _);
    (destruct r0 as [e|[v|v]];
     [eexists _, _, _; split; [reflexivity|simpl; lia]| |destruct Hr]);
    destruct Hr as (-> & Hr); destruct it1 as [ex1 ins1 fo1 steps1 i1];
    simpl in He, Hins, Hr; subst ex1 ins1.
  - destruct Hr as [[Hc _]|(_ & _ & Hf)].
    + unfold shouldContinue in Hc. rewrite HN in Hc. apply Z.ltb_lt in Hc. lia.
    + destruct fo1 as [fo1|]; [|congruence]. destruct fuel as [|fuel]; [lia|].
      rewrite (pulls_finished J fuel (mkIterator ex ins (Some fo1) steps1 i1) w1 fo1 eq_refl).
      eexists _, _, _. split; [reflexivity|simpl; lia].
  - destruct Hr as [[Hc Hit]|(_ & _ & Hf)].
    + destruct (IH fuel fo1 steps1 i1 w1) as (vs & r & st & Hp & Hl); try lia.
      rewrite Hp. eexists _, _, _. split; [reflexivity|simpl; lia].
    + destruct fo1 as [fo1|]; [|congruence]. destruct fuel as [|fuel]; [lia|].
      rewrite (pulls_finished J fuel (mkIterator ex ins (Some fo1) steps1 i1) w1 fo1 eq_refl).
      eexists _, _, _. split; [reflexivity|simpl; lia].
Qed.

(** X9. Under [maxIterations = N] the generator of [streamIterator]
    is done within [N + 2] pulls, whatever the collaborators do, and
    [_streamIterator] yields at most [N + 1] values before it ends. *)
Theorem stream_settles_within_bound J ex ins (N : Z) (fuel : nat) w :
  maxIterations ex = Some N ->
  (Z.to_nat N + 2 <= fuel)%nat ->
  (forall it, agentExecutor it = ex -> inputs it = ins ->
              exists r, streamIterator J fuel it w = Some r)
  /\ (exists vs e w',
        _streamIterator J fuel ex ins w = Some (vs, e, w')
        /\ (length vs <= Z.to_nat N + 1)%nat).
Proof.
  intros HN Hfuel.
  destruct (pulls_settle J ex ins N HN (Z.to_nat N) fuel None [] 0 w)
    as (vs & r & [it' w'] & Hp & Hl); try lia.
  split.
  - intros it <- <-. rewrite streamIterator_unfold, drain_of_pulls.
    change (reset it) with (mkIterator (agentExecutor it) (inputs it) None [] 0).
    rewrite Hp. eauto.
  - unfold _streamIterator. rewrite pulls_unfold.
    change (reset (AgentExecutorIterator_new ex ins)) with (mkIterator ex ins None [] 0).
    rewrite Hp. eauto.
Qed.

Lemma callLoop_bounds ex (byName : JsObject (@Tool W)) ins fuel :
  forall steps (i : Z) w r,
    callLoop fuel ex byName ins steps i w = Some r ->
    i <= endIterations r
    /\ (exists more, endSteps r = steps ++ more)
    /\ (forall N, maxIterations ex = Some N -> endIterations r <= Z.max N i).
Proof.
  induction fuel as [|fuel IH]; intros steps i w r; [discriminate|].
  cbn [callLoop].
  assert (Hnil : exists more : list AgentStep, steps = steps ++ more)
    by (exists []; now rewrite app_nil_r).
  destruct (shouldContinue ex i) eqn:Hc.
  - destruct (callCycle ex byName ins steps w) as [[e|[out|steps']] w'] eqn:C.
    + intros [= <-]. simpl. repeat split; auto; lia.
    + intros [= <-]. simpl. repeat split; auto; lia.
    + intros H. destruct (IH _ _ _ _ H) as (Hle & [more Hm] & Hmax).
      destruct (callCycle_appends _ _ _ _ _ _ _ C) as (out & w1 & new & _ & -> & _).
      split; [lia|]. split; [exists (new ++ more); now rewrite Hm, app_assoc|].
      intros N HN. specialize (Hmax N HN).
      unfold shouldContinue in Hc. rewrite HN in Hc. apply Z.ltb_lt in Hc. lia.
  - destruct (afterLoop ex ins steps w). intros [= <-]. simpl.
    repeat split; auto; lia.
Qed.

(** X10. Under [maxIterations = N], [_call] settles within [N + 1]
    passes through its loop, whatever the collaborators do, having
    completed no more than [N] cycles; the steps it holds at the end
    extend the steps it began with. *)
Theorem call_settles_within_bound ex ins (N : Z) (fuel : nat) w :
  maxIterations ex = Some N ->
  (Z.to_nat N < fuel)%nat ->
  exists r,
    callLoop fuel ex (toolsByName ex) ins [] 0 w = Some r
    /\ _call fuel ex ins w = Some (endResult r, endWorld r)
    /\ 0 <= endIterations r <= Z.max N 0.
Proof.
  intros HN Hfuel.
  destruct (callLoop_settles ex (toolsByName ex) ins N HN (Z.to_nat N) fuel [] 0 w)
    as [r Hr]; try lia.
  destruct (callLoop_bounds _ _ _ _ _ _ _ _ Hr) as (Hle & _ & Hmax).
  exists r. split; [assumption|]. split.
  - unfold _call. now rewrite Hr.
  - split; [assumption|]. now apply Hmax.
Qed.


(** *** Edge answers of the decision-maker *)

(** X11. When [plan] answers the first planning call with an empty
    list of actions, [_call] fails with a [TypeError], reading the last
    of no steps; the iterator records nothing, yields the empty batch
    and counts the cycle. *)
Theorem empty_plan_answer ex ins w w' :
  plan (agent ex) [] ins w = (inr (ManyActions []), w') ->
  (forall byName,
      callCycle ex byName ins [] w =
      (inl (TypeError "Cannot read properties of undefined (reading 'action')"), w'))
  /\ (forall fuel,
         shouldContinue ex 0 = true ->
         _call (S fuel) ex ins w =
         Some (inl (TypeError "Cannot read properties of undefined (reading 'action')"),
               w'))
  /\ (forall J i,
         shouldContinue ex i = true ->
         streamIterator_next J SuspendedYield (mkIterator ex ins None [] i, w) =
         (inr (Yielded {[ "intermediateSteps" := VSteps [] ]}), SuspendedYield,
          (mkIterator ex ins None [] (i + 1), w'))).
Proof.
  intros Hp.
  assert (Hc : forall byName,
             callCycle ex byName ins [] w =
             (inl (TypeError "Cannot read properties of undefined (reading 'action')"),
              w')).
  { intros byName. unfold callCycle, planOrRecover. run_monad. rewrite Hp. reflexivity. }
  split; [exact Hc|]. split.
  - intros fuel Hs. unfold _call. cbn [callLoop]. rewrite Hs, Hc. reflexivity.
  - intros J i Hs. rewrite pull_unfolded. cbv zeta. rewrite Hs.
    unfold _takeNextStep, planOrRecover. run_monad. rewrite Hp. reflexivity.
Qed.

(** X12. An error of [plan] that is no output-parsing error, or any
    error of [plan] while [handleParsingErrors] is [false], ends the
    run of either driver in that cycle: the error reaches the caller as
    it is, and the steps and the count of iterations stay as they were. *)
Theorem plan_error_ends_run ex ins (steps : list AgentStep) (i : Z) w e w' :
  plan (agent ex) steps ins w = (inl e, w') ->
  (forall m l o b, e <> OutputParserException m l o b)
  \/ handleParsingErrors ex = HBool false ->
  shouldContinue ex i = true ->
  (forall fuel byName,
      callLoop (S fuel) ex byName ins steps i w = Some (mkRunEnd i steps (inl e) w'))
  /\ (forall J,
         streamIterator_next J SuspendedYield (mkIterator ex ins None steps i, w) =
         (inl e, Completed, (mkIterator ex ins None steps i, w'))).
Proof.
  intros Hp He Hs.
  assert (Hr : planOrRecover ex steps ins w = (inl e, w')).
  { unfold planOrRecover, try_catch. rewrite Hp.
    destruct e as [m l o b| | |]; try reflexivity.
    destruct He as [He|He]; [now destruct (He m l o b)|].
    simpl. now rewrite He. }
  split.
  - intros fuel byName. cbn [callLoop]. rewrite Hs.
    unfold callCycle. unfold bind at 1. now rewrite Hr.
  - intros J. rewrite pull_unfolded. cbv zeta. rewrite Hs.
    unfold _takeNextStep. unfold bind at 1. now rewrite Hr.
Qed.

(** *** Tools that cannot read their input *)

(** X13. When a tool that an action resolves to raises an input-parsing
    error, both drivers treat it alike: under [handleParsingErrors =
    true] the step gets the observation "Invalid or incomplete tool
    input. Please try again.", under a string that string, under a
    function its value at the error, and under [false] the error is
    thrown on. *)
Theorem tool_input_error_policy ex a t w m o w' :
  call t (toolInput a) w = (inl (ToolInputParsingException m o), w') ->
  let e := ToolInputParsingException m o in
  let handled : (Exn + AgentStep) * W :=
    match handleParsingErrors ex with
    | HBool true => (inr (mkStep a "Invalid or incomplete tool input. Please try again."), w')
    | HString s => (inr (mkStep a s), w')
    | HFunction f => (inr (mkStep a (f e)), w')
    | HBool false => (inl e, w')
    end in
  (forall byName,
      tool a <> "_Exception" ->
      obj_get (toLowerCase (tool a)) byName = Some t ->
      callAction ex byName a w = handled)
  /\ (forall table,
         obj_get (tool a) table = Some t ->
         takeAction ex table a w = handled).
Proof.
  intros Hc e handled. subst e handled. split.
  - intros byName Hx Hg. apply String.eqb_neq in Hx.
    unfold callAction. rewrite Hx, Hg. run_monad. rewrite Hc.
    unfold toolInputObservation. now destruct (handleParsingErrors ex) as [[|]| |].
  - intros table Hg. unfold takeAction. rewrite Hg. run_monad. rewrite Hc.
    unfold toolInputObservation. now destruct (handleParsingErrors ex) as [[|]| |].
Qed.

(** *** A return-direct tool in the stream *)

(** X14. When the single step of a cycle comes from a tool that
    [_getToolReturn] finds to be return-direct, the generator yields the
    batch of that step, not the result, and then returns the final
    outputs: the result is never among the values it yields, which are
    all that [_streamIterator] hands on. *)
Theorem return_direct_streams_no_output J ex ins (steps : list AgentStep) (i : Z) w
    s fin w1 p w2 (fuel : nat) :
  shouldContinue ex i = true ->
  _takeNextStep ex (nameToToolMap ex) ins steps w = (inr (inr [s]), w1) ->
  _getToolReturn ex s = Some fin ->
  prepOutputs ex ins (_return ex fin (steps ++ [s])) true w1 = (inr p, w2) ->
  pulls J (S (S fuel)) SuspendedYield (mkIterator ex ins None steps i, w) =
  Some ([ {[ "intermediateSteps" := VSteps [s] ]} ], inr (Some p),
        (mkIterator ex ins (Some p) (steps ++ [s]) (i + 1), w2)).
Proof.
  intros Hs Ht Hg Hp. cbn [pulls]. rewrite pull_unfolded. cbv zeta.
  rewrite Hs, Ht, Hg, Hp.
  now rewrite (pull_finished J (mkIterator ex ins (Some p) (steps ++ [s]) (i + 1)) w2 p
                 eq_refl).
Qed.

(** *** The tool tables *)

Lemma last_entry_wins {X} (f : X -> string) (l1 l2 : list X) (x : X) :
  (forall y, In y l2 -> f y <> f x) ->
  obj_get (f x) (Object_fromEntries (map (fun y => (f y, y)) (l1 ++ x :: l2))) = Some x.
Proof.
  intros H. rewrite fromEntries_last, map_app. simpl.
  rewrite rev_app_distr. simpl. rewrite <- app_assoc, obj_get_app.
  replace (obj_get (f x) (rev (map (fun y => (f y, y)) l2))) with (@None X).
  - simpl. now rewrite String.eqb_refl.
  - symmetry. apply obj_get_None. rewrite in_map_iff.
    intros [[k y] [Hk Hin]]. simpl in Hk. subst k.
    apply in_rev, in_map_iff in Hin. destruct Hin as [y' [[= Hf <-] Hin]].
    now apply (H y').
Qed.

(** X15. Of the tools that share a name the last in the tool list is
    the one that is found: in the table of [_call] under every spelling
    of the name that agrees with it up to letter case, in the table of
    the iterator under the name as it is. *)
Theorem last_tool_of_a_name_wins ex (ts1 ts2 : list (@Tool W)) t :
  tools ex = ts1 ++ t :: ts2 ->
  ((forall t', In t' ts2 -> toLowerCase (name t') <> toLowerCase (name t)) ->
   forall n, toLowerCase n = toLowerCase (name t) ->
             obj_get (toLowerCase n) (toolsByName ex) = Some t)
  /\ ((forall t', In t' ts2 -> name t' <> name t) ->
      obj_get (name t) (nameToToolMap ex) = Some t).
Proof.
  intros Ht. unfold toolsByName, nameToToolMap. rewrite Ht. split.
  - intros H n ->. now apply (last_entry_wins (fun t => toLowerCase (name t))).
  - intros H. now apply (last_entry_wins name).
Qed.

(** X16. Each table holds every key once, however many tools share a
    name: the names that the message for an unknown tool lists are
    pairwise distinct. *)
Theorem tool_names_listed_once ex :
  NoDup (Object_keys (nameToToolMap ex)) /\ NoDup (Object_keys (toolsByName ex)).
Proof.
  split; apply Object_keys_NoDup, fromEntries_NoDup.
Qed.

(** *** The constructor *)

(** X17. The constructor throws only for a multi-action decision-maker
    with a return-direct tool.  Every executor it makes has the agent
    and the tools it was given and an iteration bound, 15 when none was
    given. *)
Theorem constructor_fails_only_for_multi_return_direct (input : @AgentExecutorInput W) :
  ((exists e, AgentExecutor_new input = inl e) <->
   _agentActionType (inAgent input) = multi
   /\ exists t, In t (inTools input) /\ returnDirect t = true)
  /\ (forall ex, AgentExecutor_new input = inr ex ->
        agent ex = inAgent input /\ tools ex = inTools input
        /\ maxIterations ex = Some (nullish (inMaxIterations input) 15)).
Proof.
  unfold AgentExecutor_new. destruct (_agentActionType (inAgent input)).
  - split.
    + split; [intros [e [=]]|intros [[=] _]].
    + intros ex [= <-]. auto.
  - destruct (List.find returnDirect (inTools input)) as [t|] eqn:F.
    + apply find_some in F. split.
      * split; eauto.
      * intros ex [=].
    + split.
      * split; [intros [e [=]]|].
        intros [_ [t [Hin Hd]]]. pose proof (find_none _ _ F t Hin). congruence.
      * intros ex [= <-]. auto.
Qed.

End MoreProperties.

(** ** The further properties at concrete inputs *)

Import Cases.

Section MoreRuns.

#[local] Existing Instance asciiStrings.

Lemma entrypoints_of_packageJson :
  listEntrypoints packageJson =
  inr (flat_map pushed
         [ (".", ExportMap (Some (ImportPath "./index.js")));
           ("./package.json", ExportPath "./package.json");
           ("./tools", ExportMap (Some (ImportPath "./tools.js")));
           ("./legacy", ExportPath "./legacy.cjs");
           ("./types", ExportMap None) ]).
Proof.
  apply (listEntrypoints_in_export_order packageJson).
  - reflexivity.
  - simpl. repeat (apply NoDup_cons_2;
              [rewrite list_elem_of_In; simpl; intuition discriminate|]).
    apply NoDup_nil_2.
  - intros k H. simpl in H.
    repeat (destruct H as [<-|H]; [reflexivity|]). destruct H.
Defined.

Lemma tree_shaking_of_packageJson :
  let out := checkTreeShaking bundler packageJson None in
  thrown out = None
  /\ consoleLog out = OriginalLog
  /\ (exitCode out = Some 1 <->
      exists ep calls args,
        In ep ["./index.js"; "./tools.js"; "./legacy.cjs"]
        /\ bundler (listExternals packageJson (nullish None [])) ep = inr calls
        /\ In args calls
        /\ startsWith (trim (join " " args)) "First side effect in" = true)
  /\ (exitCode out <> Some 1 ->
      exitCode out = None /\ printed out = ["Tree shaking checks passed!"]).
Proof.
  apply (checkTreeShaking_fails_on_side_effects bundler packageJson None
           ["./index.js"; "./tools.js"; "./legacy.cjs"]).
  - reflexivity.
  - intros ep H. unfold bundler. destruct (String.eqb ep "./tools.js"); eauto.
Defined.

Lemma final_outputs_of_exOnce :
  let s := mkStep (ask "echo" "q") "q" in
  let out : ChainValues :=
    <["intermediateSteps" := VSteps [s]]> {[ "output" := VString "q" ]} in
  Some out = _finalOutputs (mkIterator exOnce ∅ (Some out) [s] 2) /\ Some out <> None.
Proof.
  intros s out.
  apply (drained_returns_final_outputs json 4 (AgentExecutorIterator_new exOnce ∅) tt
           (inr (Some out)) (mkIterator exOnce ∅ (Some out) [s] 2) tt).
  vm_compute. reflexivity.
Defined.

Lemma iterations_of_exOnce :
  let s := mkStep (ask "echo" "q") "q" in
  let out : ChainValues :=
    <["intermediateSteps" := VSteps [s]]> {[ "output" := VString "q" ]} in
  let it' := mkIterator exOnce ∅ (Some out) [s] 2 in
  0 <= iterations it'
  /\ forall N, maxIterations (agentExecutor (AgentExecutorIterator_new exOnce ∅)) = Some N ->
               iterations it' <= Z.max N 0.
Proof.
  intros s out it'.
  apply (iterator_counts_cycles_within_bound json 4 (AgentExecutorIterator_new exOnce ∅) tt
           (inr (Some out)) it' tt).
  vm_compute. reflexivity.
Defined.

Lemma history_of_exOnce :
  let s := mkStep (ask "echo" "q") "q" in
  let out : ChainValues :=
    <["intermediateSteps" := VSteps [s]]> {[ "output" := VString "q" ]} in
  out !! "intermediateSteps" =
  Some (VSteps (intermediateSteps (mkIterator exOnce ∅ (Some out) [s] 2))).
Proof.
  intros s out.
  apply (final_outputs_hold_history json 4 (AgentExecutorIterator_new exOnce ∅) tt
           out (mkIterator exOnce ∅ (Some out) [s] 2) tt).
  - intros o w0 p w1 H. simpl in H. unfold plainOutputs, ret in H. congruence.
  - reflexivity.
  - vm_compute. reflexivity.
Defined.

Lemma stream_of_exEcho_settles :
  (forall it, agentExecutor it = exEcho -> inputs it = ∅ ->
              exists r, streamIterator json 4 it tt = Some r)
  /\ (exists vs e w',
        _streamIterator json 4 exEcho ∅ tt = Some (vs, e, w')
        /\ (length vs <= Z.to_nat 2 + 1)%nat).
Proof.
  apply (stream_settles_within_bound json exEcho ∅ 2 4 tt).
  - reflexivity.
  - simpl. lia.
Defined.

Lemma call_of_exEcho_settles :
  exists r,
    callLoop 3 exEcho (toolsByName exEcho) ∅ [] 0 tt = Some r
    /\ _call 3 exEcho ∅ tt = Some (endResult r, endWorld r)
    /\ 0 <= endIterations r <= Z.max 2 0.
Proof.
  apply (call_settles_within_bound exEcho ∅ 2 3 tt).
  - reflexivity.
  - simpl. lia.
Defined.

Lemma empty_plan_of_exIdle :
  (forall byName,
      callCycle exIdle byName ∅ [] tt =
      (inl (TypeError "Cannot read properties of undefined (reading 'action')"), tt))
  /\ (forall fuel,
         shouldContinue exIdle 0 = true ->
         _call (S fuel) exIdle ∅ tt =
         Some (inl (TypeError "Cannot read properties of undefined (reading 'action')"),
               tt))
  /\ (forall J i,
         shouldContinue exIdle i = true ->
         streamIterator_next J SuspendedYield (mkIterator exIdle ∅ None [] i, tt) =
         (inr (Yielded {[ "intermediateSteps" := VSteps [] ]}), SuspendedYield,
          (mkIterator exIdle ∅ None [] (i + 1), tt))).
Proof.
  apply (empty_plan_answer exIdle ∅ tt tt).
  reflexivity.
Defined.

Lemma plan_error_of_exDown :
  (forall fuel byName,
      callLoop (S fuel) exDown byName ∅ [] 0 tt =
      Some (mkRunEnd 0 [] (inl (Error "model unavailable")) tt))
  /\ (forall J,
         streamIterator_next J SuspendedYield (mkIterator exDown ∅ None [] 0, tt) =
         (inl (Error "model unavailable"), Completed, (mkIterator exDown ∅ None [] 0, tt))).
Proof.
  apply (plan_error_ends_run exDown ∅ [] 0 tt (Error "model unavailable") tt).
  - reflexivity.
  - left. intros m l o b. discriminate.
  - reflexivity.
Defined.

Lemma tool_input_error_of_exPatient :
  let a := ask "lookup" "q" in
  let handled : (Exn + AgentStep) * unit :=
    (inr (mkStep a "Invalid or incomplete tool input. Please try again."), tt) in
  (forall byName,
      tool a <> "_Exception" ->
      obj_get (toLowerCase (tool a)) byName = Some (pickyTool "lookup") ->
      callAction exPatient byName a tt = handled)
  /\ (forall table,
         obj_get (tool a) table = Some (pickyTool "lookup") ->
         takeAction exPatient table a tt = handled).
Proof.
  intros a handled.
  apply (tool_input_error_policy exPatient a (pickyTool "lookup") tt
           "Received tool input did not match expected schema" None tt).
  reflexivity.
Defined.

Lemma return_direct_of_exSearch :
  let s := mkStep (ask "search" "q") "q" in
  let p : ChainValues :=
    <["intermediateSteps" := VSteps [s]]> {[ "output" := VString "q" ]} in
  pulls json 2 SuspendedYield (mkIterator exSearch ∅ None [] 0, tt) =
  Some ([ {[ "intermediateSteps" := VSteps [s] ]} ], inr (Some p),
        (mkIterator exSearch ∅ (Some p) ([] ++ [s]) (0 + 1), tt)).
Proof.
  intros s p.
  apply (return_direct_streams_no_output json exSearch ∅ [] 0 tt s
           (mkFinish {[ "output" := VString "q" ]} "") tt p tt 0).
  - reflexivity.
  - vm_compute. reflexivity.
  - vm_compute. reflexivity.
  - vm_compute. reflexivity.
Defined.

Lemma last_twin_wins :
  let t := echoTool "echo" true in
  ((forall t' : @Tool unit,
       In t' [] -> toLowerCase (name t') <> toLowerCase (name t)) ->
   forall n, toLowerCase n = toLowerCase (name t) ->
             obj_get (toLowerCase n) (toolsByName exTwins) = Some t)
  /\ ((forall t' : @Tool unit, In t' [] -> name t' <> name t) ->
      obj_get (name t) (nameToToolMap exTwins) = Some t).
Proof.
  intros t.
  apply (last_tool_of_a_name_wins exTwins [echoTool "Echo" false] [] t).
  reflexivity.
Defined.

Lemma report_of_packageJson :
  printed (checkTreeShaking bundler packageJson None) =
  [ "---------------------------------";
    "Tree shaking failed for ./tools.js";
    "  First side effect in ./tools.js is at (1:0)" +:+ String (ascii_of_N 10) "" ].
Proof.
  refine (checkTreeShaking_prints_reports bundler packageJson None
            ["./index.js"; "./tools.js"; "./legacy.cjs"]
            (fun ep => match bundler [] ep with inr c => c | inl _ => [] end) _ _ _).
  - reflexivity.
  - repeat (apply NoDup_cons_2;
              [rewrite list_elem_of_In; simpl; intuition discriminate|]).
    apply NoDup_nil_2.
  - intros ep H. unfold bundler. destruct (String.eqb ep "./tools.js"); reflexivity.
Defined.

End MoreRuns.
